(** * Wildfire PM2.5 and solar-potential loss: the processing pipeline

    A shallow embedding of [wildfire_pm25_processing.py], of the regional
    aggregation of [wildfire_pm25_visualization.py] and of the entry point
    [run_visualization.py].

    Numbers.  The arrays hold IEEE floating-point numbers.  They are modelled
    as exact rationals ([Q]) extended with the special values that the
    pipeline can produce without rounding or overflow: the two infinities
    (a non-zero number divided by zero) and NaN (0/0, the mean of an empty
    slice).  Rounding, overflow and the sign of zero are not modelled.
    Coordinates (latitude, longitude, time) are finite labels, modelled as
    [Q].

    Arrays.  An [xarray.DataArray] with dimensions (lat, lon) is a record of
    its two coordinate lists, its rows (one per latitude, each a list over
    longitude) and its attributes. *)

From Stdlib Require Import QArith Qabs Lqa Lia Sorted Permutation SetoidList Ascii.
From stdpp Require Import gmap strings list sorting pretty.

(** ** Array elements *)

Inductive cell : Type :=
  | Num (q : Q)
  | PInf
  | NInf
  | NaN.

(** Sign of an element: [None] for NaN. *)
Definition csign (x : cell) : option comparison :=
  match x with
  | Num q => Some (q ?= 0)%Q
  | PInf => Some Gt
  | NInf => Some Lt
  | NaN => None
  end.

Definition sign_mul (s t : comparison) : comparison :=
  match s, t with
  | Eq, _ | _, Eq => Eq
  | Lt, Lt | Gt, Gt => Gt
  | Lt, Gt | Gt, Lt => Lt
  end.

(** The infinity of a given sign; a zero sign stands for an undefined form
    (0 * inf, 0 / 0), which is NaN. *)
Definition inf_of (s : comparison) : cell :=
  match s with
  | Lt => NInf
  | Gt => PInf
  | Eq => NaN
  end.

Definition cneg (x : cell) : cell :=
  match x with
  | Num q => Num (- q)
  | PInf => NInf
  | NInf => PInf
  | NaN => NaN
  end.

Definition cadd (x y : cell) : cell :=
  match x, y with
  | NaN, _ | _, NaN => NaN
  | Num a, Num b => Num (a + b)
  | PInf, NInf | NInf, PInf => NaN
  | PInf, _ | _, PInf => PInf
  | NInf, _ | _, NInf => NInf
  end.

Definition csub (x y : cell) : cell :=
  match x, y with
  | Num a, Num b => Num (a - b)
  | _, _ => cadd x (cneg y)
  end.

Definition cmul (x y : cell) : cell :=
  match x, y with
  | Num a, Num b => Num (a * b)
  | _, _ =>
      match csign x, csign y with
      | Some s, Some t => inf_of (sign_mul s t)
      | _, _ => NaN
      end
  end.

Definition cdiv (x y : cell) : cell :=
  match x, y with
  | NaN, _ | _, NaN => NaN
  | Num a, Num b =>
      if Qeq_bool b 0 then inf_of (a ?= 0)%Q else Num (a / b)
  | Num _, _ => Num 0
  | _, Num b => match csign x with
                | Some s => inf_of (sign_mul s (if Qle_bool 0 b then Gt else Lt))
                | None => NaN
                end
  | _, _ => NaN
  end.

(** Ordering of two elements: [None] when either is NaN, so that every
    comparison with NaN is false. *)
Definition ccmp (x y : cell) : option comparison :=
  match x, y with
  | NaN, _ | _, NaN => None
  | Num a, Num b => Some (a ?= b)%Q
  | PInf, PInf | NInf, NInf => Some Eq
  | PInf, _ | _, NInf => Some Gt
  | _, PInf | NInf, _ => Some Lt
  end.

Definition cltb (x y : cell) : bool :=
  match ccmp x y with
  | Some Lt => true
  | _ => false
  end.

Definition cleb (x y : cell) : bool :=
  match ccmp x y with
  | Some Lt | Some Eq => true
  | _ => false
  end.

(** Numeric equality of elements: rationals up to [Qeq]. *)
Definition ceq (x y : cell) : Prop :=
  match x, y with
  | Num a, Num b => (a == b)%Q
  | PInf, PInf | NInf, NInf | NaN, NaN => True
  | _, _ => False
  end.

(** ** Grids *)

Record Grid : Type := mkGrid {
  lat : list Q;
  lon : list Q;
  data : list (list cell);
  attrs : gmap string string
}.

(** The element at row [i] (latitude) and column [j] (longitude). *)
Definition cell_at (g : Grid) (i j : nat) : option cell :=
  data g !! i ≫= (.!! j).

(** A grid is rectangular when its rows match its coordinates. *)
Definition rectangular (g : Grid) : Prop :=
  length (data g) = length (lat g) ∧
  Forall (λ row, length row = length (lon g)) (data g).

(** ** Solar Potential Model ([calculate_solar_potential_change]) *)

(** [-0.48 * pm25_data / 17.71 * 100], in Python's order of evaluation. *)
Definition uncapped_change (p : cell) : cell :=
  cmul (cdiv (cmul (Num (-0.48)) p) (Num 17.71)) (Num 100).

(** [xr.where(uncapped_change < -100, -100, uncapped_change)] at one cell. *)
Definition solar_cell (p : cell) : cell :=
  let u := uncapped_change p in
  if cltb u (Num (-100)) then Num (-100) else u.

Definition solar_attrs : gmap string string :=
  <["description" :=
      "Percentage change in solar power potential due to PM2.5 concentration (capped at -100%)"]>
  (<["long_name" := "Solar Power Potential Change"]>
  (<["units" := "%"]> ∅)).

Definition calculate_solar_potential_change (pm25_data : Grid) : Grid :=
  {| lat := lat pm25_data;
     lon := lon pm25_data;
     data := map (map solar_cell) (data pm25_data);
     attrs := solar_attrs |}.

(** ** Longitude Normalizer ([fix_lon]) *)

Definition Qltb (x y : Q) : bool := negb (Qle_bool y x).

(** [xr.where(lon > 180, lon - 360, lon)] at one longitude. *)
Definition adjust_lon (v : Q) : Q :=
  if Qltb 180 v then (v - 360)%Q else v.

(** [sortby] orders by a stable argsort of the key ([np.lexsort]), then
    indexes every variable along the dimension with the resulting positions.
    The argsort is written as an insertion of (position, key) pairs, from
    the last pair to the first: a pair goes in front of the first pair whose
    key is not smaller, hence in front of any later pair with an equal key. *)
Fixpoint insert_by_key (x : nat * Q) (l : list (nat * Q)) : list (nat * Q) :=
  match l with
  | [] => [x]
  | y :: l' => if Qle_bool x.2 y.2 then x :: l else y :: insert_by_key x l'
  end.

Definition sort_pairs (ps : list (nat * Q)) : list (nat * Q) :=
  foldr insert_by_key [] ps.

Definition argsort (keys : list Q) : list nat :=
  (sort_pairs (zip (seq 0 (length keys)) keys)).*1.

(** Orderings of (position, key) pairs by key. *)
Definition key_lt (a b : nat * Q) : Prop := (a.2 < b.2)%Q.
Definition key_le (a b : nat * Q) : Prop := (a.2 <= b.2)%Q.

(** Positional indexing ([isel]) of a list by a list of positions. *)
Definition isel {A} (order : list nat) (l : list A) : list A :=
  omap (λ i, l !! i) order.

Definition fix_lon (ds : Grid) : Grid :=
  let adjusted := adjust_lon <$> lon ds in
  let order := argsort adjusted in
  {| lat := lat ds;
     lon := isel order adjusted;
     data := isel order <$> data ds;
     attrs := attrs ds |}.

(** The column order chosen by [fix_lon]. *)
Definition lon_order (ds : Grid) : list nat := argsort (adjust_lon <$> lon ds).

(** The normalization as the specification words it:
    [v if v <= 180 else v - 360]. *)
Definition normalized_lon (v : Q) : Q :=
  if Qle_bool v 180 then v else (v - 360)%Q.

(** ** Exceptions *)

Inductive exn : Type :=
  | FileNotFoundError (path : string)
  | KeyError (key : string)
  | IndexError
  | ValueError (msg : string)
  | OSError (msg : string).

Inductive result (A : Type) : Type :=
  | Ok (a : A)
  | Raise (e : exn).
Arguments Ok {A} a.
Arguments Raise {A} e.

Definition is_ok {A} (r : result A) : bool :=
  match r with
  | Ok _ => true
  | Raise _ => false
  end.

#[export] Instance result_ret : MRet result := λ A a, Ok a.
#[export] Instance result_bind : MBind result := λ A B f m,
  match m with
  | Ok a => f a
  | Raise e => Raise e
  end.

(** ** Reductions that skip NaN

    xarray reduces floating-point arrays with [skipna]: [sum] is
    [nansum] (NaN counts as zero) and [mean] is [nanmean], the NaN-skipping
    sum divided by the number of elements that are not NaN; over no element
    at all that is 0/0, NaN. *)

Definition is_nan (x : cell) : bool :=
  match x with
  | NaN => true
  | _ => false
  end.

Definition nansum (l : list cell) : cell :=
  foldr (λ x acc, if is_nan x then acc else cadd x acc) (Num 0) l.

Definition count_numbers (l : list cell) : nat :=
  length (filter (λ x, is_nan x = false) l).

Definition nanmean (l : list cell) : cell :=
  cdiv (nansum l) (Num (inject_Z (Z.of_nat (count_numbers l)))).

(** ** Datasets on disk *)

(** A variable of a dataset: a field with dimensions (lat, lon), or a series
    with dimensions (time, lat, lon), held as one frame per time step. *)
Inductive DataArray : Type :=
  | Field (g : Grid)
  | Series (s_lat s_lon : list Q) (frames : list (list (list cell)))
           (s_attrs : gmap string string).

Definition has_time (da : DataArray) : bool :=
  match da with
  | Field _ => false
  | Series _ _ _ _ => true
  end.

(** [da.mean(dim='time')]: at every (lat, lon) position the NaN-skipping
    mean of the frames; the result is shaped by the coordinates, and
    attributes are dropped. *)
Definition mean_over_time (s_lat s_lon : list Q)
    (frames : list (list (list cell))) : Grid :=
  {| lat := s_lat;
     lon := s_lon;
     data := (λ i, (λ j, nanmean (omap (λ f, f !! i ≫= (.!! j)) frames))
                     <$> seq 0 (length s_lon))
             <$> seq 0 (length s_lat);
     attrs := ∅ |}.

(** [if 'time' in pm25.dims: pm25 = pm25.mean(dim='time')]. *)
Definition collapse_time (da : DataArray) : Grid :=
  match da with
  | Field g => g
  | Series s_lat s_lon frames _ => mean_over_time s_lat s_lon frames
  end.

(** The input directory: a dataset per path, a variable per name. *)
Definition open_dataset (fs : gmap string (gmap string DataArray))
    (path : string) : result (gmap string DataArray) :=
  match fs !! path with
  | Some ds => Ok ds
  | None => Raise (FileNotFoundError path)
  end.

Definition getitem (ds : gmap string DataArray) (name : string)
    : result DataArray :=
  match ds !! name with
  | Some da => Ok da
  | None => Raise (KeyError name)
  end.

Definition data_dir : string := "./data".

(** [os.path.join] of two components: an absolute second component
    replaces the first; a separator is added unless the first is empty or
    already ends with one. *)
Fixpoint ends_with_slash (s : string) : bool :=
  match s with
  | EmptyString => false
  | String c EmptyString => bool_decide (c = "/"%char)
  | String _ s' => ends_with_slash s'
  end.

Definition path_join (dir file : string) : string :=
  if String.prefix "/" file then file
  else if bool_decide (dir = "") || ends_with_slash dir then dir +:+ file
  else dir +:+ "/" +:+ file.

(** ** Subtraction of two fields

    Binary arithmetic first aligns the operands on their coordinates
    (inner join).  Along a dimension whose two indexes are equal nothing
    moves.  Otherwise both indexes must be free of duplicates, the labels
    of the left operand that also occur in the right one are kept, in the
    left order, and both operands are re-indexed to them. *)

Fixpoint Qs_eqb (xs ys : list Q) : bool :=
  match xs, ys with
  | [], [] => true
  | x :: xs', y :: ys' => Qeq_bool x y && Qs_eqb xs' ys'
  | _, _ => false
  end.

Fixpoint index_of (x : Q) (xs : list Q) : option nat :=
  match xs with
  | [] => None
  | y :: xs' => if Qeq_bool x y then Some 0%nat else S <$> index_of x xs'
  end.

Fixpoint uniqueb (xs : list Q) : bool :=
  match xs with
  | [] => true
  | x :: xs' => negb (bool_decide (is_Some (index_of x xs'))) && uniqueb xs'
  end.

Definition align_index (xs ys : list Q)
    : result (list Q * list nat * list nat) :=
  if Qs_eqb xs ys then
    Ok (xs, seq 0 (length xs), seq 0 (length ys))
  else if uniqueb xs && uniqueb ys then
    let joined := filter (λ x, is_Some (index_of x ys)) xs in
    Ok (joined, omap (λ x, index_of x xs) joined,
                omap (λ x, index_of x ys) joined)
  else
    Raise (ValueError
      "cannot reindex or align along dimension with duplicate values").

Definition xr_sub (a b : Grid) : result Grid :=
  '(lats, ra, rb) ← align_index (lat a) (lat b);
  '(lons, ca, cb) ← align_index (lon a) (lon b);
  Ok {| lat := lats;
        lon := lons;
        data := zip_with (zip_with csub)
                  (isel ca <$> isel ra (data a))
                  (isel cb <$> isel rb (data b));
        attrs := ∅ |}.

(** The statistics that are printed ([.min()], [.max()], [.mean()] of a
    whole field): the minimum of an array without elements raises. *)
Definition print_stats (g : Grid) : result () :=
  match concat (data g) with
  | [] => Raise (ValueError
      "zero-size array to reduction operation fmin which has no identity")
  | _ :: _ => Ok ()
  end.

(** ** Scenario Loader ([process_scenario_data]) *)

Definition process_scenario_data (fs : gmap string (gmap string DataArray))
    (year : Z) (scenario : string) : result (Grid * Grid * Grid) :=
  (* the first print reads scenario[0] and scenario[1] *)
  _ ← (if (String.length scenario <? 2)%nat then Raise IndexError else Ok ());
  let baseline_path :=
    path_join data_dir
      ("CESM_09x125_PM25_" +:+ pretty year +:+ "_RCP" +:+ scenario +:+ ".nc") in
  let nofire_path :=
    path_join data_dir
      ("CESM_09x125_PM25_" +:+ pretty year +:+ "_RCP" +:+ scenario
         +:+ "_NoFire.nc") in
  baseline_ds ← open_dataset fs baseline_path;
  nofire_ds ← open_dataset fs nofire_path;
  baseline_pm25 ← getitem baseline_ds "pm25";
  nofire_pm25 ← getitem nofire_ds "pm25";
  let baseline_pm25 := collapse_time baseline_pm25 in
  let nofire_pm25 := collapse_time nofire_pm25 in
  let baseline_pm25 := fix_lon baseline_pm25 in
  let nofire_pm25 := fix_lon nofire_pm25 in
  wildfire_pm25 ← xr_sub baseline_pm25 nofire_pm25;
  _ ← print_stats wildfire_pm25;
  Ok (wildfire_pm25, baseline_pm25, nofire_pm25).

(** ** Orchestrator ([main] of the processing module) *)

(** A dictionary display: the items are stored in source order, a later
    item replacing an earlier one with the same key. *)
Definition dict_literal {V} (items : list (string * V)) : gmap string V :=
  foldl (λ m kv, <[kv.1 := kv.2]> m) ∅ items.

Definition main (fs : gmap string (gmap string DataArray))
    : result (gmap string Grid) :=
  baseline_2000_ds ←
    open_dataset fs (path_join data_dir "CESM_09x125_PM25_2000_Baseline.nc");
  nofire_2000_ds ←
    open_dataset fs
      (path_join data_dir "CESM_09x125_PM25_2000_BaseLine_NoFire.nc");
  baseline_pm25_2000 ← getitem baseline_2000_ds "pm25";
  nofire_pm25_2000 ← getitem nofire_2000_ds "pm25";
  let baseline_pm25_2000 := collapse_time baseline_pm25_2000 in
  let nofire_pm25_2000 := collapse_time nofire_pm25_2000 in
  let baseline_pm25_2000 := fix_lon baseline_pm25_2000 in
  let nofire_pm25_2000 := fix_lon nofire_pm25_2000 in
  wildfire_pm25_2000 ← xr_sub baseline_pm25_2000 nofire_pm25_2000;
  _ ← print_stats wildfire_pm25_2000;
  '(wildfire_pm25_2050_45, baseline_pm25_2050_45, nofire_pm25_2050_45) ←
    process_scenario_data fs 2050 "45";
  '(wildfire_pm25_2050_85, baseline_pm25_2050_85, nofire_pm25_2050_85) ←
    process_scenario_data fs 2050 "85";
  '(wildfire_pm25_2100_45, baseline_pm25_2100_45, nofire_pm25_2100_45) ←
    process_scenario_data fs 2100 "45";
  '(wildfire_pm25_2100_85, baseline_pm25_2100_85, nofire_pm25_2100_85) ←
    process_scenario_data fs 2100 "85";
  (* temporal changes in wildfire PM2.5 *)
  change_2000_to_2050_45 ← xr_sub wildfire_pm25_2050_45 wildfire_pm25_2000;
  change_2000_to_2050_85 ← xr_sub wildfire_pm25_2050_85 wildfire_pm25_2000;
  change_2050_to_2100_45 ← xr_sub wildfire_pm25_2100_45 wildfire_pm25_2050_45;
  change_2050_to_2100_85 ← xr_sub wildfire_pm25_2100_85 wildfire_pm25_2050_85;
  change_2000_to_2100_45 ← xr_sub wildfire_pm25_2100_45 wildfire_pm25_2000;
  change_2000_to_2100_85 ← xr_sub wildfire_pm25_2100_85 wildfire_pm25_2000;
  _ ← print_stats change_2000_to_2050_45;
  _ ← print_stats change_2050_to_2100_45;
  _ ← print_stats change_2000_to_2100_45;
  _ ← print_stats change_2000_to_2050_85;
  _ ← print_stats change_2050_to_2100_85;
  _ ← print_stats change_2000_to_2100_85;
  (* solar power potential changes *)
  let solar_change_2000 := calculate_solar_potential_change wildfire_pm25_2000 in
  let solar_change_2050_45 :=
    calculate_solar_potential_change wildfire_pm25_2050_45 in
  let solar_change_2050_85 :=
    calculate_solar_potential_change wildfire_pm25_2050_85 in
  let solar_change_2100_45 :=
    calculate_solar_potential_change wildfire_pm25_2100_45 in
  let solar_change_2100_85 :=
    calculate_solar_potential_change wildfire_pm25_2100_85 in
  _ ← print_stats solar_change_2000;
  _ ← print_stats solar_change_2050_45;
  _ ← print_stats solar_change_2050_85;
  _ ← print_stats solar_change_2100_45;
  _ ← print_stats solar_change_2100_85;
  (* changes in solar power potential over time *)
  solar_diff_2000_to_2050_45 ← xr_sub solar_change_2050_45 solar_change_2000;
  solar_diff_2000_to_2050_85 ← xr_sub solar_change_2050_85 solar_change_2000;
  solar_diff_2050_to_2100_45 ← xr_sub solar_change_2100_45 solar_change_2050_45;
  solar_diff_2050_to_2100_85 ← xr_sub solar_change_2100_85 solar_change_2050_85;
  solar_diff_2000_to_2100_45 ← xr_sub solar_change_2100_45 solar_change_2000;
  solar_diff_2000_to_2100_85 ← xr_sub solar_change_2100_85 solar_change_2000;
  _ ← print_stats solar_diff_2000_to_2050_45;
  _ ← print_stats solar_diff_2000_to_2050_85;
  _ ← print_stats solar_diff_2050_to_2100_45;
  _ ← print_stats solar_diff_2050_to_2100_85;
  _ ← print_stats solar_diff_2000_to_2100_45;
  _ ← print_stats solar_diff_2000_to_2100_85;
  Ok (dict_literal [
     ("baseline_pm25_2000", baseline_pm25_2000);
     ("baseline_pm25_2050_45", baseline_pm25_2050_45);
     ("baseline_pm25_2050_85", baseline_pm25_2050_85);
     ("baseline_pm25_2100_45", baseline_pm25_2100_45);
     ("baseline_pm25_2100_85", baseline_pm25_2100_85);
     ("nofire_pm25_2000", nofire_pm25_2000);
     ("nofire_pm25_2050_45", nofire_pm25_2050_45);
     ("nofire_pm25_2050_85", nofire_pm25_2050_85);
     ("nofire_pm25_2100_45", nofire_pm25_2100_45);
     ("nofire_pm25_2100_85", nofire_pm25_2100_85);
     ("wildfire_pm25_2000", wildfire_pm25_2000);
     ("wildfire_pm25_2050_45", wildfire_pm25_2050_45);
     ("wildfire_pm25_2050_85", wildfire_pm25_2050_85);
     ("wildfire_pm25_2100_45", wildfire_pm25_2100_45);
     ("wildfire_pm25_2100_85", wildfire_pm25_2100_85);
     ("change_2000_to_2050_45", change_2000_to_2050_45);
     ("change_2000_to_2050_85", change_2000_to_2050_85);
     ("change_2050_to_2100_45", change_2050_to_2100_45);
     ("change_2050_to_2100_85", change_2050_to_2100_85);
     ("change_2000_to_2100_45", change_2000_to_2100_45);
     ("change_2000_to_2100_85", change_2000_to_2100_85);
     ("solar_change_2000", solar_change_2000);
     ("solar_change_2050_45", solar_change_2050_45);
     ("solar_change_2050_85", solar_change_2050_85);
     ("solar_change_2100_45", solar_change_2100_45);
     ("solar_change_2100_85", solar_change_2100_85);
     ("solar_diff_2000_to_2050_45", solar_diff_2000_to_2050_45);
     ("solar_diff_2000_to_2050_85", solar_diff_2000_to_2050_85);
     ("solar_diff_2050_to_2100_45", solar_diff_2050_to_2100_45);
     ("solar_diff_2050_to_2100_85", solar_diff_2050_to_2100_85);
     ("solar_diff_2000_to_2100_45", solar_diff_2000_to_2100_45);
     ("solar_diff_2000_to_2100_85", solar_diff_2000_to_2100_85)
  ]).

(** The listing of the processed variables that [main] prints, by
    category. *)
Definition variables : list (string * list string) := [
  ("Baseline PM2.5",
     ["baseline_pm25_2000"; "baseline_pm25_2050_45"; "baseline_pm25_2050_85";
      "baseline_pm25_2100_45"; "baseline_pm25_2100_85"]);
  ("No-Fire PM2.5",
     ["nofire_pm25_2000"; "nofire_pm25_2050_45"; "nofire_pm25_2050_85";
      "nofire_pm25_2100_45"; "nofire_pm25_2100_85"]);
  ("Wildfire PM2.5",
     ["wildfire_pm25_2000"; "wildfire_pm25_2050_45"; "wildfire_pm25_2050_85";
      "wildfire_pm25_2100_45"; "wildfire_pm25_2100_85"]);
  ("Temporal Changes in Wildfire PM2.5",
     ["change_2000_to_2050_45"; "change_2000_to_2050_85";
      "change_2050_to_2100_45"; "change_2050_to_2100_85";
      "change_2000_to_2100_45"; "change_2000_to_2100_85"]);
  ("Solar Power Potential Changes",
     ["solar_change_2000"; "solar_change_2050_45"; "solar_change_2050_85";
      "solar_change_2100_45"; "solar_change_2100_85"]);
  ("Changes in Solar Power Potential",
     ["solar_diff_2000_to_2050_45"; "solar_diff_2000_to_2050_85";
      "solar_diff_2050_to_2100_45"; "solar_diff_2050_to_2100_85";
      "solar_diff_2000_to_2100_45"; "solar_diff_2000_to_2100_85"])
].

Definition variable_names : list string := concat variables.*2.

(** ** Scenario keys and the pairings of the differencer

    The keys and pairings as the specification words them: the baseline
    year and two future years under two pathways; baseline to 2050, 2050 to
    2100 and baseline to 2100, for both pathways. *)

Inductive pathway : Type := RCP45 | RCP85.

Inductive ScenarioKey : Type :=
  | Baseline2000
  | Projection (year : Z) (p : pathway).

Definition key_year (k : ScenarioKey) : Z :=
  match k with
  | Baseline2000 => 2000
  | Projection year _ => year
  end.


Definition pathway_tag (p : pathway) : string :=
  match p with
  | RCP45 => "45"
  | RCP85 => "85"
  end.

Definition key_suffix (k : ScenarioKey) : string :=
  match k with
  | Baseline2000 => "2000"
  | Projection year p => pretty year +:+ "_" +:+ pathway_tag p
  end.

Definition wildfire_name (k : ScenarioKey) : string :=
  "wildfire_pm25_" +:+ key_suffix k.

Definition solar_name (k : ScenarioKey) : string :=
  "solar_change_" +:+ key_suffix k.

Definition pair_suffix (earlier later : ScenarioKey) : string :=
  pretty (key_year earlier) +:+ "_to_" +:+ key_suffix later.

Definition change_name (earlier later : ScenarioKey) : string :=
  "change_" +:+ pair_suffix earlier later.

Definition solar_diff_name (earlier later : ScenarioKey) : string :=
  "solar_diff_" +:+ pair_suffix earlier later.





(** In the mapping [m], the field [name] is the field [later] minus the
    field [earlier]. *)
Definition is_difference (m : gmap string Grid) (name later earlier : string)
    : Prop :=
  ∃ a b d, m !! later = Some a ∧ m !! earlier = Some b ∧
           m !! name = Some d ∧ xr_sub a b = Ok d.

(** Two grids on the same coordinates. *)
Definition same_coords (a b : Grid) : Prop :=
  Qs_eqb (lat a) (lat b) = true ∧ Qs_eqb (lon a) (lon b) = true.

(** Sum of a list of rationals, as [nansum] adds them. *)
Definition Qsum (xs : list Q) : Q := foldr Qplus 0%Q xs.

(** Every cell of a grid is NaN. *)
Definition all_nan (g : Grid) : Prop :=
  ∀ i j c, cell_at g i j = Some c → c = NaN.

(** The paths that [process_scenario_data] reads. *)
Definition scenario_path (year : Z) (scenario : string) : string :=
  path_join data_dir
    ("CESM_09x125_PM25_" +:+ pretty year +:+ "_RCP" +:+ scenario +:+ ".nc").

Definition scenario_nofire_path (year : Z) (scenario : string) : string :=
  path_join data_dir
    ("CESM_09x125_PM25_" +:+ pretty year +:+ "_RCP" +:+ scenario
       +:+ "_NoFire.nc").

(** ** Regional Aggregator ([calculate_regional_means]) *)

Record Region : Type := mkRegion {
  lat_min : Q;
  lat_max : Q;
  lon_min : Q;
  lon_max : Q
}.

Definition regions : list (string * Region) := [
  ("North America", mkRegion 15 70 (-170) (-50));
  ("South America", mkRegion (-55) 15 (-80) (-35));
  ("Europe", mkRegion 35 70 (-10) 40);
  ("Africa", mkRegion (-35) 35 (-20) 55);
  ("Asia", mkRegion 0 55 60 150);
  ("Australia", mkRegion (-45) (-10) 110 155)
].

(** Selection by a slice of labels, [sel(dim=slice(lo, hi))], on an
    ascending index: the positions run from the number of labels below [lo]
    (a left search) to the number of labels not above [hi] (a right
    search).  The model is meant for ascending coordinates only, as the
    pipeline produces them. *)
Definition searchsorted_left (coords : list Q) (v : Q) : nat :=
  length (List.filter (λ x, Qltb x v) coords).

Definition searchsorted_right (coords : list Q) (v : Q) : nat :=
  length (List.filter (λ x, Qle_bool x v) coords).

(** The Python slice [l[start:stop]]. *)
Definition slice {A} (start stop : nat) (l : list A) : list A :=
  take (stop - start) (drop start l).

Definition sel_box (ds : Grid) (r : Region) : Grid :=
  let r0 := searchsorted_left (lat ds) (lat_min r) in
  let r1 := searchsorted_right (lat ds) (lat_max r) in
  let c0 := searchsorted_left (lon ds) (lon_min r) in
  let c1 := searchsorted_right (lon ds) (lon_max r) in
  {| lat := slice r0 r1 (lat ds);
     lon := slice c0 c1 (lon ds);
     data := slice c0 c1 <$> slice r0 r1 (data ds);
     attrs := attrs ds |}.

Section regional.
(** [np.cos(np.deg2rad(x))]: the cosine of an angle in degrees, as the
    floating-point number that the library returns. *)
Variable cos_deg : Q → Q.

(** The weighted mean of one field over one region. *)
Definition weighted_mean (ds : Grid) (r : Region) : cell :=
  let region_data := sel_box ds r in
  let weights := (λ x, Num (cos_deg x)) <$> lat region_data in
  (* xr.ones_like(region_data) * weights: the weights along latitude,
     broadcast across longitude *)
  let weight_factors :=
    zip_with (λ row w, (λ _, cmul (Num 1) w) <$> row)
             (data region_data) weights in
  let weighted_sum :=
    nansum (concat (zip_with (zip_with cmul)
                      (data region_data) weight_factors)) in
  let sum_of_weights := nansum (concat weight_factors) in
  cdiv weighted_sum sum_of_weights.

(** The loops over the regions and over the named fields fill a
    dictionary of dictionaries, [regional_means[region][name]]. *)
Definition calculate_regional_means (data_dict : list (string * Grid))
    : gmap string (gmap string cell) :=
  dict_literal
    ((λ region, (region.1,
        dict_literal ((λ item, (item.1, weighted_mean item.2 region.2))
                        <$> data_dict)))
       <$> regions).

(** Inclusive bounds. *)
Definition in_bounds (lo hi x : Q) : bool := Qle_bool lo x && Qle_bool x hi.

Definition cell_value (c : cell) : Q :=
  match c with
  | Num q => q
  | _ => 0
  end.

(** The rows whose latitude is within the bounds of the region, and the
    cells of a row whose longitude is. *)
Definition kept_rows (ds : Grid) (r : Region) : list (Q * list cell) :=
  List.filter (λ p, in_bounds (lat_min r) (lat_max r) p.1)
              (zip (lat ds) (data ds)).

Definition kept_cells (ds : Grid) (r : Region) (row : list cell)
    : list (Q * cell) :=
  List.filter (λ p, in_bounds (lon_min r) (lon_max r) p.1)
              (zip (lon ds) row).

(** The cells of the window, each with its latitude. *)
Definition window_cells (ds : Grid) (r : Region) : list (Q * cell) :=
  p ← kept_rows ds r;
  (λ c, (p.1, c.2)) <$> kept_cells ds r p.2.

(** The weighted mean as the specification words it: over the cells
    whose latitude and longitude lie within the inclusive bounds, the sum
    of value times cosine of latitude over the sum of the cosines. *)
Definition spec_weighted_mean (ds : Grid) (r : Region) : cell :=
  let cells := window_cells ds r in
  cdiv (Num (Qsum ((λ p, cell_value p.2 * cos_deg p.1)%Q <$> cells)))
       (Num (Qsum ((λ p, cos_deg p.1) <$> cells))).
End regional.

(** Every cell of a grid is a number. *)
Definition numeric (g : Grid) : Prop :=
  Forall (Forall (λ c, ∃ q, c = Num q)) (data g).

(** A rational stand-in for the cosine of an angle in degrees between -90
    and 90 (Bhaskara's approximation), used to run the aggregation on
    sample fields. *)
Definition approx_cos_deg (x : Q) : Q :=
  ((32400 - 4 * x * x) / (32400 + x * x))%Q.

(** ** Sample inputs *)

(** A field of constant value [c] on a 2 x 3 grid with longitudes in
    [0, 360). *)
Definition const_grid (c : Q) : Grid :=
  {| lat := [-10; 10]%Q;
     lon := [0; 120; 240]%Q;
     data := replicate 2 (replicate 3 (Num c));
     attrs := ∅ |}.

(** A field on a 2 x 3 grid with longitudes in [0, 360), and a normalized
    field of constant value [c] on ascending coordinates. *)
Definition sample_grid : Grid :=
  {| lat := [-10; 10]%Q;
     lon := [0; 120; 240]%Q;
     data := [[Num 1; Num 2; Num 3]; [Num 4; Num 5; Num 6]];
     attrs := ∅ |}.

Definition normalized_grid (c : Q) : Grid :=
  {| lat := [-10; 10]%Q;
     lon := [-120; 0; 120]%Q;
     data := replicate 2 (replicate 3 (Num c));
     attrs := ∅ |}.

Definition sample_grid_normalized : Grid :=
  {| lat := [-10; 10]%Q;
     lon := [-120; 0; 120]%Q;
     data := [[Num 3; Num 1; Num 2]; [Num 6; Num 4; Num 5]];
     attrs := ∅ |}.

(** A field with one cell, and one at longitude 600. *)
Definition one_cell (c : Q) : Grid :=
  {| lat := [0]%Q; lon := [0]%Q; data := [[Num c]]; attrs := ∅ |}.


(** PM2.5 values at the boundary of the cap (uncapped change exactly -100)
    and beyond it. *)
Definition cap_grid : Grid :=
  {| lat := [0]%Q;
     lon := [0; 1]%Q;
     data := [[Num (1771 # 48); Num 4000]];
     attrs := ∅ |}.

Definition const_file (c : Q) : gmap string DataArray :=
  {[ "pm25" := Field (const_grid c) ]}.

(** A standard run for 2050 under RCP 4.5 whose time dimension is
    present and empty, next to a no-fire run at 4 on the same grid. *)
Definition empty_time_fs : gmap string (gmap string DataArray) :=
  list_to_map [
    ("./data/CESM_09x125_PM25_2050_RCP45.nc",
       {[ "pm25" := Series [-10; 10]%Q [0; 120; 240]%Q [] ∅ ]});
    ("./data/CESM_09x125_PM25_2050_RCP45_NoFire.nc", const_file 4)
  ].

(** The ten input files, every standard run at 10 and every no-fire run
    at 4. *)
Definition sample_fs : gmap string (gmap string DataArray) :=
  list_to_map [
    ("./data/CESM_09x125_PM25_2000_Baseline.nc", const_file 10);
    ("./data/CESM_09x125_PM25_2000_BaseLine_NoFire.nc", const_file 4);
    ("./data/CESM_09x125_PM25_2050_RCP45.nc", const_file 10);
    ("./data/CESM_09x125_PM25_2050_RCP45_NoFire.nc", const_file 4);
    ("./data/CESM_09x125_PM25_2050_RCP85.nc", const_file 10);
    ("./data/CESM_09x125_PM25_2050_RCP85_NoFire.nc", const_file 4);
    ("./data/CESM_09x125_PM25_2100_RCP45.nc", const_file 10);
    ("./data/CESM_09x125_PM25_2100_RCP45_NoFire.nc", const_file 4);
    ("./data/CESM_09x125_PM25_2100_RCP85.nc", const_file 10);
    ("./data/CESM_09x125_PM25_2100_RCP85_NoFire.nc", const_file 4)
  ].

(** A standard run for 2050 under RCP 4.5 on latitudes -10 and 10, next
    to a no-fire run on latitude 0 only. *)
Definition disjoint_fs : gmap string (gmap string DataArray) :=
  list_to_map [
    ("./data/CESM_09x125_PM25_2050_RCP45.nc", const_file 10);
    ("./data/CESM_09x125_PM25_2050_RCP45_NoFire.nc",
       {[ "pm25" := Field (one_cell 4) ]})
  ].

(** A series of three frames over one cell, the second without data. *)
Definition gappy_series : DataArray :=
  Series [0]%Q [0]%Q [[[Num 2]]; [[NaN]]; [[Num 4]]] ∅.

(** ** Entry point ([run_visualization.py])

    The figure functions of the visualization module, the file system and
    the cosine are the environment of the run: a plotting call either
    saves its figure or raises. *)

Module run_visualization.

Inductive plot_call : Type :=
  | create_pm25_map (ds : Grid) (title filename : string)
  | create_solar_potential_map (ds : Grid) (title filename cmap : string)
  | create_scenario_comparison_map (data_dict : list (string * Grid))
      (title filename : string) (cmap : option string)
  | create_regional_bar_chart (data_df : gmap string (gmap string cell))
      (title filename : string).

Definition plot_filename (c : plot_call) : string :=
  match c with
  | create_pm25_map _ _ filename
  | create_solar_potential_map _ _ filename _
  | create_scenario_comparison_map _ _ filename _
  | create_regional_bar_chart _ _ filename => filename
  end.

(** What a run writes: lines on standard output, figures on disk, and
    tracebacks. *)
Inductive event : Type :=
  | Print (line : string)
  | SaveFig (path : string)
  | PrintExc (e : exn).

Record Env : Type := mkEnv {
  data_files : gmap string (gmap string DataArray);
  (* os.listdir(data_dir), run when the processing module is imported *)
  listdir_error : option exn;
  (* os.makedirs(out_dir, exist_ok=True) *)
  makedirs : string → option exn;
  abspath : string → string;
  plot : plot_call → option exn;
  cos_deg : Q → Q
}.

(** Programs that write events and may raise. *)
Definition prog (A : Type) : Type := (result A * list event)%type.

#[export] Instance prog_ret : MRet prog := λ A a, (Ok a, []).
#[export] Instance prog_bind : MBind prog := λ A B f m,
  match m with
  | (Ok a, log) => let '(r, log') := f a in (r, log ++ log')
  | (Raise e, log) => (Raise e, log)
  end.

Definition emit (ev : event) : prog () := (Ok (), [ev]).

Definition lift {A} (r : result A) : prog A := (r, []).

Definition raise_if (o : option exn) : prog () :=
  match o with
  | Some e => (Raise e, [])
  | None => (Ok (), [])
  end.

(** [try: body except Exception as e: handler]. *)
Definition try_except {A} (body : prog A) (handler : exn → prog A)
    : prog A :=
  match body with
  | (Ok a, log) => (Ok a, log)
  | (Raise e, log) => let '(r, log') := handler e in (r, log ++ log')
  end.

(** [str(e)]. *)
Definition exn_str (e : exn) : string :=
  match e with
  | FileNotFoundError path => "No such file or directory: " +:+ path
  | KeyError key => key
  | IndexError => "string index out of range"
  | ValueError msg => msg
  | OSError msg => msg
  end.

Definition DEFAULT_OUTPUT_DIR : string := "./figures".

(** [setup_visualization_env] creates the directory and sets plotting
    styles; [set_output_directory] records the directory and calls it. *)
Definition setup_visualization_env (env : Env) (out_dir : string)
    : prog string :=
  raise_if (makedirs env out_dir);;
  mret out_dir.

Definition set_output_directory (env : Env) (out_dir : string)
    : prog string :=
  setup_visualization_env env out_dir.

(** A call of a figure function: it saves the figure under the output
    directory and reports it, unless it raises. *)
Definition draw (env : Env) (output_dir : string) (c : plot_call)
    : prog () :=
  raise_if (plot env c);;
  emit (SaveFig (path_join output_dir (plot_filename c)));;
  emit (Print ("Saved figure to "
                 +:+ path_join output_dir (plot_filename c))).

Definition getfield (processed_data : gmap string Grid) (key : string)
    : prog Grid :=
  match processed_data !! key with
  | Some ds => mret ds
  | None => (Raise (KeyError key), [])
  end.

(** The body of the [try] block of [main]. *)
Definition visualize (env : Env) (output_dir : string) : prog () :=
  emit (Print "Processing PM2.5 data...");;
  processed_data ← lift (main (data_files env));
  emit (Print "Extracting key datasets for visualization...");;
  wildfire_pm25_2000 ← getfield processed_data "wildfire_pm25_2000";
  wildfire_pm25_2050_45 ← getfield processed_data "wildfire_pm25_2050_45";
  wildfire_pm25_2050_85 ← getfield processed_data "wildfire_pm25_2050_85";
  wildfire_pm25_2100_45 ← getfield processed_data "wildfire_pm25_2100_45";
  wildfire_pm25_2100_85 ← getfield processed_data "wildfire_pm25_2100_85";
  change_2000_to_2050_45 ← getfield processed_data "change_2000_to_2050_45";
  change_2000_to_2050_85 ← getfield processed_data "change_2000_to_2050_85";
  change_2050_to_2100_45 ← getfield processed_data "change_2050_to_2100_45";
  change_2050_to_2100_85 ← getfield processed_data "change_2050_to_2100_85";
  change_2000_to_2100_45 ← getfield processed_data "change_2000_to_2100_45";
  change_2000_to_2100_85 ← getfield processed_data "change_2000_to_2100_85";
  solar_change_2000 ← getfield processed_data "solar_change_2000";
  solar_change_2050_45 ← getfield processed_data "solar_change_2050_45";
  solar_change_2050_85 ← getfield processed_data "solar_change_2050_85";
  solar_change_2100_45 ← getfield processed_data "solar_change_2100_45";
  solar_change_2100_85 ← getfield processed_data "solar_change_2100_85";
  solar_diff_2000_to_2050_45 ← getfield processed_data "solar_diff_2000_to_2050_45";
  solar_diff_2000_to_2050_85 ← getfield processed_data "solar_diff_2000_to_2050_85";
  solar_diff_2050_to_2100_45 ← getfield processed_data "solar_diff_2050_to_2100_45";
  solar_diff_2050_to_2100_85 ← getfield processed_data "solar_diff_2050_to_2100_85";
  solar_diff_2000_to_2100_45 ← getfield processed_data "solar_diff_2000_to_2100_45";
  solar_diff_2000_to_2100_85 ← getfield processed_data "solar_diff_2000_to_2100_85";
  emit (Print "Generating visualizations...");;
  emit (Print "1. Creating PM2.5 concentration maps...");;
  draw env output_dir (create_pm25_map wildfire_pm25_2000
    "Wildfire PM2.5 Concentration (2000 Baseline)" "wildfire_pm25_2000.png");;
  draw env output_dir (create_pm25_map wildfire_pm25_2050_45
    "Wildfire PM2.5 Concentration (2050 RCP 4.5)" "wildfire_pm25_2050_rcp45.png");;
  draw env output_dir (create_pm25_map wildfire_pm25_2050_85
    "Wildfire PM2.5 Concentration (2050 RCP 8.5)" "wildfire_pm25_2050_rcp85.png");;
  draw env output_dir (create_pm25_map wildfire_pm25_2100_45
    "Wildfire PM2.5 Concentration (2100 RCP 4.5)" "wildfire_pm25_2100_rcp45.png");;
  draw env output_dir (create_pm25_map wildfire_pm25_2100_85
    "Wildfire PM2.5 Concentration (2100 RCP 8.5)" "wildfire_pm25_2100_rcp85.png");;
  let pm25_scenario_dict := [
    ("2000 Baseline", wildfire_pm25_2000);
    ("2050 RCP 4.5", wildfire_pm25_2050_45);
    ("2050 RCP 8.5", wildfire_pm25_2050_85);
    ("2100 RCP 4.5", wildfire_pm25_2100_45);
    ("2100 RCP 8.5", wildfire_pm25_2100_85) ] in
  draw env output_dir (create_scenario_comparison_map pm25_scenario_dict
    "Wildfire PM2.5 Concentration Across Scenarios"
    "wildfire_pm25_scenario_comparison.png" (Some "YlOrBr"));;
  let pm25_changes_dict := [
    ("2000 to 2050 (RCP 4.5)", change_2000_to_2050_45);
    ("2000 to 2050 (RCP 8.5)", change_2000_to_2050_85);
    ("2050 to 2100 (RCP 4.5)", change_2050_to_2100_45);
    ("2050 to 2100 (RCP 8.5)", change_2050_to_2100_85) ] in
  draw env output_dir (create_scenario_comparison_map pm25_changes_dict
    "Changes in Wildfire PM2.5 Concentration Over Time"
    "wildfire_pm25_changes.png" None);;
  emit (Print "2. Creating solar potential change maps...");;
  draw env output_dir (create_solar_potential_map solar_change_2000
    "Solar Potential Loss Due to Wildfire PM2.5 (2000 Baseline)"
    "solar_potential_loss_2000.png" "Reds_r");;
  draw env output_dir (create_solar_potential_map solar_change_2050_45
    "Solar Potential Loss Due to Wildfire PM2.5 (2050 RCP 4.5)"
    "solar_potential_loss_2050_rcp45.png" "Reds_r");;
  draw env output_dir (create_solar_potential_map solar_change_2050_85
    "Solar Potential Loss Due to Wildfire PM2.5 (2050 RCP 8.5)"
    "solar_potential_loss_2050_rcp85.png" "Reds_r");;
  draw env output_dir (create_solar_potential_map solar_change_2100_45
    "Solar Potential Loss Due to Wildfire PM2.5 (2100 RCP 4.5)"
    "solar_potential_loss_2100_rcp45.png" "Reds_r");;
  draw env output_dir (create_solar_potential_map solar_change_2100_85
    "Solar Potential Loss Due to Wildfire PM2.5 (2100 RCP 8.5)"
    "solar_potential_loss_2100_rcp85.png" "Reds_r");;
  let solar_scenario_dict := [
    ("2000 Baseline", solar_change_2000);
    ("2050 RCP 4.5", solar_change_2050_45);
    ("2050 RCP 8.5", solar_change_2050_85);
    ("2100 RCP 4.5", solar_change_2100_45);
    ("2100 RCP 8.5", solar_change_2100_85) ] in
  draw env output_dir (create_scenario_comparison_map solar_scenario_dict
    "Solar Potential Loss Due to Wildfire PM2.5 Across Scenarios"
    "solar_potential_loss_scenario_comparison.png" (Some "Reds_r"));;
  let solar_changes_dict := [
    ("2000 to 2050 (RCP 4.5)", solar_diff_2000_to_2050_45);
    ("2000 to 2050 (RCP 8.5)", solar_diff_2000_to_2050_85);
    ("2050 to 2100 (RCP 4.5)", solar_diff_2050_to_2100_45);
    ("2050 to 2100 (RCP 8.5)", solar_diff_2050_to_2100_85) ] in
  draw env output_dir (create_scenario_comparison_map solar_changes_dict
    "Changes in Solar Potential Loss Over Time"
    "solar_potential_loss_changes.png" None);;
  emit (Print "3. Creating regional analysis visualizations...");;
  let pm25_regional_means :=
    calculate_regional_means (cos_deg env) pm25_scenario_dict in
  draw env output_dir (create_regional_bar_chart pm25_regional_means
    "Regional Wildfire PM2.5 Concentration Across Scenarios"
    "regional_wildfire_pm25.png");;
  let solar_regional_means :=
    calculate_regional_means (cos_deg env) solar_scenario_dict in
  draw env output_dir (create_regional_bar_chart solar_regional_means
    "Regional Solar Potential Loss Due to Wildfire PM2.5"
    "regional_solar_potential_loss.png");;
  let solar_changes_regional_means :=
    calculate_regional_means (cos_deg env) solar_changes_dict in
  draw env output_dir (create_regional_bar_chart solar_changes_regional_means
    "Regional Changes in Solar Potential Loss Over Time"
    "regional_solar_potential_loss_changes.png");;
  emit (Print "Visualization process completed successfully!");;
  emit (Print ("All figures saved to: " +:+ abspath env output_dir)).

(** [main(out_dir)]: the exit code that it returns, or the exception
    that leaves it. *)
Definition main (env : Env) (out_dir : string) : prog Z :=
  emit (Print "Starting wildfire PM2.5 visualization process...");;
  output_dir ← set_output_directory env out_dir;
  emit (Print ("Figures will be saved to: " +:+ abspath env output_dir));;
  try_except
    (visualize env output_dir;; mret 0%Z)
    (λ e,
       emit (Print ("Error during visualization process: " +:+ exn_str e));;
       emit (PrintExc e);;
       mret 1%Z).

(** The script: the imports, the command line, [main], [sys.exit].  An
    exception that nothing catches makes the interpreter print its
    traceback and exit with status 1.  The result is the exit status and
    what was written. *)
Definition script (env : Env) (argv : list string) : Z * list event :=
  match listdir_error env with
  | Some e => (1%Z, [PrintExc e])
  | None =>
      let output_dir :=
        if (1 <? length argv)%nat then default "" (argv !! 1%nat)
        else DEFAULT_OUTPUT_DIR in
      match main env output_dir with
      | (Ok exit_code, log) => (exit_code, log)
      | (Raise e, log) => (1%Z, log ++ [PrintExc e])
      end
  end.

(** The line that the handler of [main] prints. *)
Definition is_error_message (ev : event) : bool :=
  match ev with
  | Print line => String.prefix "Error during visualization process: " line
  | _ => false
  end.

(** An environment in which every plotting call succeeds and the output
    directory can be created. *)
Definition sample_env : Env :=
  {| data_files := sample_fs;
     listdir_error := None;
     makedirs := λ _, None;
     abspath := λ p, p;
     plot := λ _, None;
     cos_deg := approx_cos_deg |}.

(** The same, except that the output directory cannot be created. *)
Definition readonly_env : Env :=
  {| data_files := sample_fs;
     listdir_error := None;
     makedirs := λ _, Some (OSError "Permission denied");
     abspath := λ p, p;
     plot := λ _, None;
     cos_deg := approx_cos_deg |}.

End run_visualization.

(** Every cell of a grid is a number that the cap of the Solar Potential
    Model does not reach. *)
Definition below_cap (g : Grid) : Prop :=
  Forall (Forall (λ c, ∃ q, c = Num q ∧ (q <= 1771 # 48)%Q)) (data g).

(** ** What a run of the entry point leaves behind *)

(** The figures saved and the tracebacks printed, in order. *)
Definition saved_figures (log : list run_visualization.event) : list string :=
  omap (λ ev, match ev with
              | run_visualization.SaveFig path => Some path
              | _ => None
              end) log.

Definition tracebacks (log : list run_visualization.event) : list exn :=
  omap (λ ev, match ev with
              | run_visualization.PrintExc e => Some e
              | _ => None
              end) log.

(** The file names of the seventeen figures, in the order of the calls of
    [main]. *)
Definition figure_files : list string :=
  [ "wildfire_pm25_2000.png";
    "wildfire_pm25_2050_rcp45.png";
    "wildfire_pm25_2050_rcp85.png";
    "wildfire_pm25_2100_rcp45.png";
    "wildfire_pm25_2100_rcp85.png";
    "wildfire_pm25_scenario_comparison.png";
    "wildfire_pm25_changes.png";
    "solar_potential_loss_2000.png";
    "solar_potential_loss_2050_rcp45.png";
    "solar_potential_loss_2050_rcp85.png";
    "solar_potential_loss_2100_rcp45.png";
    "solar_potential_loss_2100_rcp85.png";
    "solar_potential_loss_scenario_comparison.png";
    "solar_potential_loss_changes.png";
    "regional_wildfire_pm25.png";
    "regional_solar_potential_loss.png";
    "regional_solar_potential_loss_changes.png" ].

(** A program writes the figures [files]: all of them, in order, when it
    completes, and the first few of them when it raises; in either case it
    prints no traceback. *)
Definition writes_figures {A} (files : list string)
    (p : run_visualization.prog A) : Prop :=
  tracebacks p.2 = [] ∧
  match p.1 with
  | Ok _ => saved_figures p.2 = files
  | Raise _ => ∃ k, saved_figures p.2 = take k files
  end.

(** ** Layout and colour range of the comparison figure
       ([create_scenario_comparison_map]) *)

(** [int(np.ceil(n / d))] for counts. *)
Definition ceil_div (n d : nat) : nat := ((n + d - 1) / d)%nat.

(** The rows and columns of the grid of panels. *)
Definition panel_grid (n_panels : nat) : nat * nat :=
  if (n_panels <=? 3)%nat then (1%nat, n_panels)
  else if (n_panels <=? 6)%nat then (2%nat, ceil_div n_panels 2)
  else (3%nat, ceil_div n_panels 3).

Definition cabs (x : cell) : cell :=
  match x with
  | Num q => Num (Qabs q)
  | PInf | NInf => PInf
  | NaN => NaN
  end.

(** Python's [min] and [max] of a list: the first item, replaced in turn
    by every later item that compares below (above) the one held;
    [ValueError] on an empty list. *)
Definition py_min (l : list cell) : result cell :=
  match l with
  | [] => Raise (ValueError "min() arg is an empty sequence")
  | x :: l' => Ok (foldl (λ held y, if cltb y held then y else held) x l')
  end.

Definition py_max (l : list cell) : result cell :=
  match l with
  | [] => Raise (ValueError "max() arg is an empty sequence")
  | x :: l' => Ok (foldl (λ held y, if cltb held y then y else held) x l')
  end.

(** [data.min().values] and [data.max().values]: the least and the
    greatest of the cells that are not NaN, NaN when every cell is NaN,
    and [ValueError] for a field without cells. *)
Definition field_extremum (better : cell → cell → bool) (g : Grid)
    : result cell :=
  match concat (data g) with
  | [] => Raise (ValueError
      "zero-size array to reduction operation fmin which has no identity")
  | _ :: _ =>
      match filter (λ c, is_nan c = false) (concat (data g)) with
      | [] => Ok NaN
      | x :: l => Ok (foldl (λ held y, if better y held then y else held) x l)
      end
  end.

Definition field_min (g : Grid) : result cell := field_extremum cltb g.

Definition field_max (g : Grid) : result cell :=
  field_extremum (λ y held, cltb held y) g.

Definition diverging (cmap : string) : bool :=
  bool_decide (cmap = "RdBu_r") || bool_decide (cmap = "RdBu").

(** The limits of the colour scale: the given ones when both are given;
    otherwise the extremes over all panels, made symmetric about zero for
    a diverging colour map, each replaced by a limit that was given. *)
Definition comparison_limits (data_dict : list (string * Grid))
    (vmin vmax : option cell) (cmap : string) : result (cell * cell) :=
  match vmin, vmax with
  | Some lo, Some hi => Ok (lo, hi)
  | _, _ =>
      mins ← mapM (λ item, field_min item.2) data_dict;
      all_min ← py_min mins;
      maxs ← mapM (λ item, field_max item.2) data_dict;
      all_max ← py_max maxs;
      if diverging cmap then
        abs_max ← py_max [cabs all_min; cabs all_max];
        Ok (default (cneg abs_max) vmin, default abs_max vmax)
      else
        Ok (default all_min vmin, default all_max vmax)
  end.

(** ** The five scenarios and the ten input files *)

Definition scenario_keys : list ScenarioKey :=
  [ Baseline2000;
    Projection 2050 RCP45; Projection 2050 RCP85;
    Projection 2100 RCP45; Projection 2100 RCP85 ].

Definition baseline_name (k : ScenarioKey) : string :=
  "baseline_pm25_" +:+ key_suffix k.

Definition nofire_name (k : ScenarioKey) : string :=
  "nofire_pm25_" +:+ key_suffix k.

(** The paths that a run of [main] opens, in the order in which it opens
    them. *)
Definition required_paths : list string :=
  [ path_join data_dir "CESM_09x125_PM25_2000_Baseline.nc";
    path_join data_dir "CESM_09x125_PM25_2000_BaseLine_NoFire.nc";
    scenario_path 2050 "45"; scenario_nofire_path 2050 "45";
    scenario_path 2050 "85"; scenario_nofire_path 2050 "85";
    scenario_path 2100 "45"; scenario_nofire_path 2100 "45";
    scenario_path 2100 "85"; scenario_nofire_path 2100 "85" ].

(* ===================================================================== *)
(** * Properties *)
(* ===================================================================== *)

(** ** Elements *)

Lemma ccmp_antisym x y : ccmp y x = CompOpp <$> ccmp x y.
Proof.
  destruct x as [a| | |], y as [b| | |]; simpl; try reflexivity.
  by rewrite <- Qcompare_antisym.
Qed.

Lemma cleb_not_cltb x y : cleb x y = true → cltb y x = false.
Proof.
  unfold cleb, cltb. rewrite (ccmp_antisym x y).
  destruct (ccmp x y) as [[]|]; simpl; congruence.
Qed.

Lemma cltb_Num a b : cltb (Num a) (Num b) = true ↔ (a < b)%Q.
Proof.
  unfold cltb; simpl. rewrite Qlt_alt.
  destruct (a ?= b)%Q; split; congruence.
Qed.

Lemma cltb_Num_false a b : cltb (Num a) (Num b) = false ↔ (b <= a)%Q.
Proof.
  rewrite <- not_true_iff_false, cltb_Num. split; [apply Qnot_lt_le | apply Qle_not_lt].
Qed.

(** ** Solar Potential Model *)

Lemma uncapped_change_Num q :
  uncapped_change (Num q) = Num (-0.48 * q / 17.71 * 100)%Q.
Proof. reflexivity. Qed.

Lemma cell_at_solar g i j :
  cell_at (calculate_solar_potential_change g) i j = solar_cell <$> cell_at g i j.
Proof.
  unfold cell_at; simpl. rewrite list_lookup_fmap.
  destruct (data g !! i) as [row|]; simpl; [|done].
  by rewrite list_lookup_fmap.
Qed.

(** C1.  At every cell of every input field, with [u] the value of
    [-0.48 * p / 17.71 * 100] there: the output cell is [u] itself when
    [-100 <= u] (so a [u] of exactly -100 passes through), and is -100 when
    [u < -100].  For a number [q] the quantity [u] is the rational
    [-0.48 * q / 17.71 * 100]. *)
Theorem solar_potential_clamp (g : Grid) (i j : nat) (p : cell) :
  cell_at g i j = Some p →
  (∀ q, p = Num q → uncapped_change p = Num (-0.48 * q / 17.71 * 100)%Q) ∧
  (cleb (Num (-100)) (uncapped_change p) = true →
     cell_at (calculate_solar_potential_change g) i j = Some (uncapped_change p)) ∧
  (cltb (uncapped_change p) (Num (-100)) = true →
     cell_at (calculate_solar_potential_change g) i j = Some (Num (-100))).
Proof.
  intros Hp. rewrite cell_at_solar, Hp. simpl. unfold solar_cell.
  split; [|split].
  - intros q ->. apply uncapped_change_Num.
  - intros Hle. by rewrite (cleb_not_cltb _ _ Hle).
  - intros Hlt. by rewrite Hlt.
Qed.

(** C4 (as amended).  The solar-potential change of a numeric cell is a
    number that is never below -100; it is at most 0 where the wildfire
    PM2.5 is non-negative, and it is positive where the wildfire PM2.5 is
    negative. *)
Theorem solar_potential_bounds (g : Grid) (i j : nat) (q : Q) :
  cell_at g i j = Some (Num q) →
  ∃ r, cell_at (calculate_solar_potential_change g) i j = Some (Num r) ∧
       (-100 <= r)%Q ∧ ((0 <= q)%Q → (r <= 0)%Q) ∧ ((q < 0)%Q → (0 < r)%Q).
Proof.
  intros Hq. rewrite cell_at_solar, Hq. simpl. unfold solar_cell.
  rewrite uncapped_change_Num.
  set (u := (-0.48 * q / 17.71 * 100)%Q).
  assert (Hu : (u == q * (-4800 # 1771))%Q) by (unfold u; field).
  destruct (cltb (Num u) (Num (-100))) eqn:Hc.
  - apply cltb_Num in Hc. exists (-100)%Q. repeat split; lra.
  - apply cltb_Num_false in Hc. exists u. repeat split; lra.
Qed.

(** ** Stable sorting by key *)

Section sorting.
Implicit Types (ps : list (nat * Q)) (keys : list Q).

Lemma insert_by_key_perm x ps : insert_by_key x ps ≡ₚ x :: ps.
Proof.
  induction ps as [|y ps IH]; simpl; [done|].
  destruct (Qle_bool x.2 y.2); [done|].
  rewrite IH. apply Permutation_swap.
Qed.

Lemma sort_pairs_perm ps : sort_pairs ps ≡ₚ ps.
Proof.
  induction ps as [|x ps IH]; simpl; [done|].
  rewrite insert_by_key_perm. by rewrite IH.
Qed.

Lemma Qltb_lt x y : Qltb x y = true ↔ (x < y)%Q.
Proof.
  unfold Qltb. rewrite negb_true_iff, <- not_true_iff_false, Qle_bool_iff.
  split; [apply Qnot_le_lt | apply Qlt_not_le].
Qed.

Lemma Qle_bool_false x y : Qle_bool x y = false ↔ (y < x)%Q.
Proof.
  rewrite <- not_true_iff_false, Qle_bool_iff.
  split; [apply Qnot_le_lt | apply Qlt_not_le].
Qed.

Lemma insert_by_key_strict x ps :
  StronglySorted key_lt ps →
  Forall (λ y, ¬ (x.2 == y.2)%Q) ps →
  StronglySorted key_lt (insert_by_key x ps).
Proof.
  induction 1 as [|y ps Hs IH Hy]; intros Hx; simpl.
  { repeat constructor. }
  apply Forall_cons in Hx as [Hxy Hx].
  destruct (Qle_bool x.2 y.2) eqn:Hle.
  - apply Qle_bool_iff in Hle.
    assert (Hlt : key_lt x y).
    { unfold key_lt. destruct (Qle_lt_or_eq _ _ Hle); [done | contradiction]. }
    constructor; [by constructor|].
    constructor; [done|].
    eapply Forall_impl; [exact Hy|].
    unfold key_lt in *. intros z Hz. lra.
  - apply Qle_bool_false in Hle.
    constructor; [by apply IH|].
    rewrite insert_by_key_perm. by constructor.
Qed.

Lemma sort_pairs_strict ps :
  NoDupA Qeq ps.*2 → StronglySorted key_lt (sort_pairs ps).
Proof.
  induction ps as [|x ps IH]; simpl; intros Hnd.
  { constructor. }
  inversion_clear Hnd as [|? ? Hx Hps].
  apply insert_by_key_strict; [by apply IH|].
  rewrite sort_pairs_perm. apply Forall_forall. intros y Hy Heq.
  apply Hx. apply InA_alt. exists y.2. split; [done|].
  apply list_elem_of_In, list_elem_of_fmap. by exists y.
Qed.


Lemma zip_seq_lookup keys k :
  Forall (λ p, keys !! (p.1 - k)%nat = Some p.2 ∧ (k ≤ p.1)%nat)
         (zip (seq k (length keys)) keys).
Proof.
  apply Forall_forall. intros [i x] Hin.
  apply list_elem_of_lookup in Hin as [n Hn].
  apply lookup_zip_Some in Hn as [Hi Hx].
  apply lookup_seq in Hi as [-> _]. simpl.
  replace (k + n - k)%nat with n by lia. split; [done | lia].
Qed.

Lemma sorted_index_lookup keys :
  Forall (λ p, keys !! p.1 = Some p.2)
         (sort_pairs (zip (seq 0 (length keys)) keys)).
Proof.
  rewrite sort_pairs_perm.
  eapply Forall_impl; [apply (zip_seq_lookup keys 0)|].
  intros [i x]; simpl. by rewrite Nat.sub_0_r; intros [? _].
Qed.

Lemma isel_pairs {A} (l : list A) (ps : list (nat * A)) :
  Forall (λ p, l !! p.1 = Some p.2) ps → isel ps.*1 l = ps.*2.
Proof.
  unfold isel.
  induction 1 as [|[i x] ps Hx _ IH]; simpl in *; [done|].
  rewrite Hx. f_equal. exact IH.
Qed.

Lemma argsort_perm keys : argsort keys ≡ₚ seq 0 (length keys).
Proof.
  unfold argsort. rewrite sort_pairs_perm.
  rewrite fst_zip; [done|]. by rewrite length_seq.
Qed.

Lemma isel_argsort keys :
  isel (argsort keys) keys = (sort_pairs (zip (seq 0 (length keys)) keys)).*2.
Proof. apply isel_pairs, sorted_index_lookup. Qed.

Lemma isel_argsort_perm keys : isel (argsort keys) keys ≡ₚ keys.
Proof.
  rewrite isel_argsort, sort_pairs_perm.
  rewrite snd_zip; [done|]. by rewrite length_seq.
Qed.

Lemma isel_lookup {A} (order : list nat) (l : list A) k :
  Forall (λ i, (i < length l)%nat) order →
  isel order l !! k = order !! k ≫= (l !!.).
Proof.
  intros Hall. revert k.
  induction Hall as [|i order Hi _ IH]; intros k; [done|].
  apply lookup_lt_is_Some in Hi as [x Hx].
  unfold isel in *; simpl. rewrite Hx.
  destruct k as [|k]; simpl; [done|]. apply IH.
Qed.

Lemma argsort_bound keys :
  Forall (λ i, (i < length keys)%nat) (argsort keys).
Proof.
  rewrite argsort_perm. apply Forall_forall. intros i Hi.
  apply elem_of_seq in Hi. lia.
Qed.

Lemma isel_app {A} (o1 o2 : list nat) (l : list A) :
  isel (o1 ++ o2) l = isel o1 l ++ isel o2 l.
Proof. apply omap_app. Qed.

Lemma isel_out_of_range {A} (order : list nat) (l : list A) :
  Forall (λ i, (length l ≤ i)%nat) order → isel order l = [].
Proof.
  unfold isel. induction 1 as [|i order Hi _ IH]; [done|].
  cbn [omap list_omap]. by rewrite (lookup_ge_None_2 l i Hi).
Qed.

Lemma isel_seq_all {A} (l : list A) : isel (seq 0 (length l)) l = l.
Proof.
  apply list_eq. intros k. rewrite isel_lookup.
  - destruct (decide (k < length l)%nat) as [Hk|Hk].
    + by rewrite lookup_seq_lt.
    + rewrite lookup_seq_ge by lia. by rewrite lookup_ge_None_2 by lia.
  - apply Forall_forall. intros i Hi. apply elem_of_seq in Hi. lia.
Qed.

Lemma isel_seq_ge {A} (l : list A) n :
  (length l ≤ n)%nat → isel (seq 0 n) l = l.
Proof.
  intros Hn. replace n with (length l + (n - length l))%nat by lia.
  rewrite seq_app, isel_app, isel_seq_all, isel_out_of_range.
  - apply app_nil_r.
  - apply Forall_forall. intros i Hi. apply elem_of_seq in Hi. lia.
Qed.
End sorting.

(** ** Longitude Normalizer *)

Section fix_lon_facts.
Implicit Types (g : Grid) (v : Q).

Lemma adjust_lon_normalized v : adjust_lon v = normalized_lon v.
Proof.
  unfold adjust_lon, normalized_lon, Qltb.
  by destruct (Qle_bool v 180).
Qed.

Lemma adjust_lon_inj v w :
  (0 <= v)%Q → (v < 360)%Q → (0 <= w)%Q → (w < 360)%Q →
  (adjust_lon v == adjust_lon w)%Q → (v == w)%Q.
Proof.
  unfold adjust_lon. intros ? ? ? ?.
  destruct (Qltb 180 v) eqn:Hv, (Qltb 180 w) eqn:Hw; intros Heq;
    try apply Qltb_lt in Hv; try apply Qltb_lt in Hw;
    try (apply not_true_iff_false in Hv; rewrite Qltb_lt in Hv);
    try (apply not_true_iff_false in Hw; rewrite Qltb_lt in Hw); lra.
Qed.

Lemma adjust_lon_NoDupA (l : list Q) :
  Forall (λ v, (0 <= v)%Q ∧ (v < 360)%Q) l →
  NoDupA Qeq l → NoDupA Qeq (adjust_lon <$> l).
Proof.
  induction 1 as [|v l [Hv0 Hv1] Hl IH]; intros Hnd; [constructor|].
  inversion_clear Hnd as [|? ? Hv Hnd']. cbn [fmap list_fmap].
  constructor; [|by apply IH].
  intros Hin. apply Hv. apply InA_alt in Hin as (y & Heq & Hy).
  apply list_elem_of_In, list_elem_of_fmap in Hy as (w & -> & Hw).
  rewrite Forall_forall in Hl. destruct (Hl w Hw) as [Hw0 Hw1].
  apply InA_alt. exists w. split; [|by apply list_elem_of_In].
  by apply adjust_lon_inj.
Qed.

Lemma lon_fix_lon g :
  lon (fix_lon g) =
  (sort_pairs (zip (seq 0 (length (lon g))) (adjust_lon <$> lon g))).*2.
Proof.
  unfold fix_lon; cbn [lon]. rewrite isel_argsort. by rewrite length_fmap.
Qed.

Lemma lon_fix_lon_perm g : lon (fix_lon g) ≡ₚ adjust_lon <$> lon g.
Proof. apply isel_argsort_perm. Qed.

Lemma length_lon_fix_lon g : length (lon (fix_lon g)) = length (lon g).
Proof. by rewrite lon_fix_lon_perm, length_fmap. Qed.

Lemma lon_order_bound g :
  Forall (λ i, (i < length (lon g))%nat) (lon_order g).
Proof.
  unfold lon_order.
  generalize (argsort_bound (adjust_lon <$> lon g)). by rewrite length_fmap.
Qed.

Lemma lon_order_length g : length (lon_order g) = length (lon g).
Proof. unfold lon_order. by rewrite argsort_perm, length_seq, length_fmap. Qed.

Lemma lon_order_total g j :
  (j < length (lon g))%nat → ∃ j', lon_order g !! j' = Some j.
Proof.
  intros Hj. apply list_elem_of_lookup. unfold lon_order.
  rewrite argsort_perm, length_fmap. apply elem_of_seq. lia.
Qed.

Lemma lon_fix_lon_lookup g j' :
  lon (fix_lon g) !! j' =
  lon_order g !! j' ≫= λ j, adjust_lon <$> lon g !! j.
Proof.
  unfold fix_lon, lon_order; cbn [lon].
  rewrite isel_lookup by apply argsort_bound.
  destruct (argsort _ !! j') as [j|]; simpl; [|done].
  apply list_lookup_fmap.
Qed.

Lemma cell_at_fix_lon g i j' :
  rectangular g →
  cell_at (fix_lon g) i j' = lon_order g !! j' ≫= cell_at g i.
Proof.
  intros [_ Hrows]. unfold cell_at, fix_lon; cbn [data].
  fold (lon_order g). rewrite list_lookup_fmap.
  destruct (data g !! i) as [row|] eqn:Hrow; simpl.
  - rewrite isel_lookup; [done|].
    rewrite Forall_forall in Hrows.
    rewrite (Hrows row) by (by eapply list_elem_of_lookup_2).
    apply lon_order_bound.
  - by destruct (lon_order g !! j').
Qed.
End fix_lon_facts.

(** C2.  On a grid whose longitudes are distinct and lie in [0, 360),
    [fix_lon] returns a grid whose longitudes are strictly ascending and are
    exactly the values [v if v <= 180 else v - 360] of the input longitudes;
    the latitudes and the shape are unchanged, every input cell is found in
    the same row under the normalized value of its longitude, and every
    output cell comes from such an input cell. *)
Theorem fix_lon_relabels_and_reorders (g : Grid) :
  rectangular g →
  NoDupA Qeq (lon g) →
  Forall (λ v, (0 <= v)%Q ∧ (v < 360)%Q) (lon g) →
  StronglySorted Qlt (lon (fix_lon g)) ∧
  (∀ x, x ∈ lon (fix_lon g) ↔ ∃ v, v ∈ lon g ∧ x = normalized_lon v) ∧
  lat (fix_lon g) = lat g ∧
  length (lon (fix_lon g)) = length (lon g) ∧
  (∀ i j v c, lon g !! j = Some v → cell_at g i j = Some c →
     ∃ j', lon (fix_lon g) !! j' = Some (normalized_lon v) ∧
           cell_at (fix_lon g) i j' = Some c) ∧
  (∀ i j' x c, lon (fix_lon g) !! j' = Some x →
     cell_at (fix_lon g) i j' = Some c →
     ∃ j v, lon g !! j = Some v ∧ x = normalized_lon v ∧
            cell_at g i j = Some c).
Proof.
  intros Hrect Hnd Hrange. repeat split.
  - rewrite lon_fix_lon.
    apply (StronglySorted_fmap snd key_lt Qlt); [done|].
    apply sort_pairs_strict.
    rewrite snd_zip by (by rewrite length_seq, length_fmap).
    by apply adjust_lon_NoDupA.
  - rewrite lon_fix_lon_perm. intros Hx.
    apply list_elem_of_fmap in Hx as (v & -> & Hv).
    exists v. split; [done | apply adjust_lon_normalized].
  - rewrite lon_fix_lon_perm. intros (v & Hv & ->).
    rewrite <- adjust_lon_normalized. apply list_elem_of_fmap. by exists v.
  - apply length_lon_fix_lon.
  - intros i j v c Hv Hc.
    destruct (lon_order_total g j) as [j' Hj']; [by eapply lookup_lt_Some|].
    exists j'. rewrite lon_fix_lon_lookup, cell_at_fix_lon, Hj' by done.
    simpl. rewrite Hv, Hc. simpl. by rewrite adjust_lon_normalized.
  - intros i j' x c. rewrite lon_fix_lon_lookup, cell_at_fix_lon by done.
    destruct (lon_order g !! j') as [j|]; simpl; [|done].
    destruct (lon g !! j) as [v|] eqn:Hv; simpl; [|done].
    intros [= <-] Hc. exists j, v. by rewrite adjust_lon_normalized.
Qed.

Section fix_lon_idempotence.
Implicit Types (g : Grid) (ps : list (nat * Q)).

Lemma insert_by_key_sorted x ps :
  StronglySorted key_le ps → StronglySorted key_le (insert_by_key x ps).
Proof.
  induction 1 as [|y ps Hs IH Hy]; simpl.
  { repeat constructor. }
  destruct (Qle_bool x.2 y.2) eqn:Hle.
  - apply Qle_bool_iff in Hle.
    constructor; [by constructor|].
    constructor; [done|].
    eapply Forall_impl; [exact Hy|].
    unfold key_le in *. intros z Hz. lra.
  - apply Qle_bool_false in Hle.
    constructor; [done|].
    rewrite insert_by_key_perm. constructor; [|done].
    unfold key_le. lra.
Qed.

Lemma sort_pairs_is_sorted ps : StronglySorted key_le (sort_pairs ps).
Proof.
  induction ps as [|x ps IH]; simpl; [constructor|].
  by apply insert_by_key_sorted.
Qed.







Lemma fix_lon_sorted g : StronglySorted Qle (lon (fix_lon g)).
Proof.
  rewrite lon_fix_lon.
  apply (StronglySorted_fmap snd key_le Qle); [done|].
  apply sort_pairs_is_sorted.
Qed.

End fix_lon_idempotence.


(** ** Orchestrator *)

(** Inversion of a successful run of a chain of binds. *)
Ltac bind_inv H :=
  cbv beta iota delta [mbind result_bind] in H;
  repeat match type of H with
  | match ?e with Ok _ => _ | Raise _ => _ end = Ok _ =>
      let E := fresh "E" in
      destruct e as [?|?] eqn:E; [|discriminate H]
  | context [match ?p with pair _ _ => _ end] => destruct p
  | Ok _ = Ok _ => injection H as H
  end.

Lemma dom_dict_literal {V} (items : list (string * V)) :
  dom (dict_literal items) = list_to_set items.*1.
Proof.
  unfold dict_literal.
  assert (H : ∀ m : gmap string V,
    dom (foldl (λ m kv, <[kv.1 := kv.2]> m) m items)
    = list_to_set items.*1 ∪ dom m).
  { induction items as [|[k v] items IH]; intros m; simpl.
    - by rewrite (left_id_L ∅ (∪)).
    - rewrite IH, dom_insert_L.
      by rewrite (assoc_L (∪)), (comm_L (∪) _ {[k]}). }
  by rewrite H, dom_empty_L, (right_id_L ∅ (∪)).
Qed.

Lemma lookup_dict_literal {V} (items : list (string * V)) k v :
  NoDup items.*1 → (k, v) ∈ items → dict_literal items !! k = Some v.
Proof.
  unfold dict_literal.
  assert (H : ∀ m : gmap string V, NoDup items.*1 →
    foldl (λ m kv, <[kv.1 := kv.2]> m) m items !! k
    = match list_to_map (M := gmap string V) items !! k with
      | Some x => Some x
      | None => m !! k
      end).
  { induction items as [|[k' v'] items IH]; intros m Hnd; simpl.
    - by rewrite lookup_empty.
    - apply NoDup_cons in Hnd as [Hk' Hnd]. rewrite IH by done.
      destruct (list_to_map (M := gmap string V) items !! k) as [x|] eqn:Hx.
      + assert (k ≠ k').
        { intros ->. apply Hk'. apply list_elem_of_fmap.
          exists (k', x). split; [done|].
          by apply elem_of_list_to_map_2. }
        by rewrite lookup_insert_ne, Hx.
      + destruct (decide (k' = k)) as [->|Hne].
        * by rewrite !lookup_insert_eq.
        * by rewrite !lookup_insert_ne, Hx. }
  intros Hnd Hin. rewrite H by done.
  by rewrite (elem_of_list_to_map_1 _ _ _ Hnd Hin).
Qed.

(** Names of the mapping are compared as literals. *)
Ltac literal_names :=
  repeat match goal with
  | |- context [change_name ?e ?l] =>
      let x := eval vm_compute in (change_name e l) in
      change (change_name e l) with x
  | |- context [solar_diff_name ?e ?l] =>
      let x := eval vm_compute in (solar_diff_name e l) in
      change (solar_diff_name e l) with x
  | |- context [wildfire_name ?e] =>
      let x := eval vm_compute in (wildfire_name e) in
      change (wildfire_name e) with x
  | |- context [solar_name ?e] =>
      let x := eval vm_compute in (solar_name e) in
      change (solar_name e) with x
  end.

Ltac find_item :=
  first [ apply list_elem_of_here | apply list_elem_of_further; find_item ].

(** C6 (as amended).  A successful run of [main] returns a mapping of
    exactly 32 named fields: the names of the listing of processed
    variables. *)
Theorem main_returns_32_fields (fs : gmap string (gmap string DataArray))
    (m : gmap string Grid) :
  main fs = Ok m →
  size m = 32%nat ∧ dom m = list_to_set variable_names ∧
  length variable_names = 32%nat ∧ NoDup variable_names.
Proof.
  unfold main. intros H. bind_inv H. subst m.
  split; [vm_compute; reflexivity|].
  split; [by rewrite dom_dict_literal|].
  split; [reflexivity|].
  apply (bool_decide_unpack (NoDup variable_names)). vm_compute. exact I.
Qed.


(** ** Subtraction on a common grid *)

Lemma Qs_eqb_length xs ys : Qs_eqb xs ys = true → length xs = length ys.
Proof.
  revert ys. induction xs as [|x xs IH]; intros [|y ys]; simpl; try done.
  intros H. apply andb_true_iff in H as [_ H]. f_equal. by apply IH.
Qed.

Lemma isel_rows_rectangular (rows : list (list cell)) n :
  Forall (λ row, length row = n) rows → isel (seq 0 n) <$> rows = rows.
Proof.
  induction 1 as [|row rows Hrow _ IH]; [done|].
  cbn [fmap list_fmap]. f_equal; [apply isel_seq_ge; lia | exact IH].
Qed.

Lemma xr_sub_same_coords a b :
  same_coords a b → rectangular a → rectangular b →
  xr_sub a b = Ok {| lat := lat a; lon := lon a;
                     data := zip_with (zip_with csub) (data a) (data b);
                     attrs := ∅ |}.
Proof.
  intros [Hlat Hlon] [Ha Hra] [Hb Hrb]. unfold xr_sub, align_index.
  rewrite Hlat, Hlon. cbv beta iota delta [mbind result_bind].
  rewrite !isel_seq_ge by lia.
  by rewrite !isel_rows_rectangular.
Qed.

Lemma xr_sub_elementwise a b d :
  same_coords a b → rectangular a → rectangular b → xr_sub a b = Ok d →
  lat d = lat a ∧ lon d = lon a ∧
  ∀ i j, cell_at d i j =
         x ← cell_at a i j; y ← cell_at b i j; Some (csub x y).
Proof.
  intros Hc Ha Hb. rewrite xr_sub_same_coords by done. intros [= <-].
  repeat split. intros i j. unfold cell_at; cbn [data].
  rewrite lookup_zip_with.
  destruct (data a !! i) as [ra|]; simpl; [|done].
  destruct (data b !! i) as [rb|]; simpl.
  - rewrite lookup_zip_with. by destruct (ra !! j).
  - by destruct (ra !! j).
Qed.

(** ** Temporal/Scenario Differencer *)


(** ** Scenario Loader *)

Section loader.
Implicit Types (g : Grid) (frames : list (list (list cell))).

Lemma Qs_eqb_refl xs : Qs_eqb xs xs = true.
Proof.
  induction xs as [|x xs IH]; simpl; [done|].
  rewrite IH, andb_true_r. by apply Qeq_bool_iff.
Qed.

Lemma length_isel {A} (order : list nat) (l : list A) :
  Forall (λ i, (i < length l)%nat) order →
  length (isel order l) = length order.
Proof.
  unfold isel, omap. induction 1 as [|i order Hi _ IH]; simpl in *; [done|].
  apply lookup_lt_is_Some in Hi as [x ->]. simpl. by rewrite IH.
Qed.

Lemma rectangular_fix_lon g : rectangular g → rectangular (fix_lon g).
Proof.
  intros [Hlen Hrows]. split.
  - unfold fix_lon; cbn [data lat]. by rewrite length_fmap.
  - rewrite length_lon_fix_lon. unfold fix_lon; cbn [data].
    fold (lon_order g). apply Forall_fmap.
    eapply Forall_impl; [exact Hrows|]. simpl. intros row Hrow.
    rewrite length_isel; [apply lon_order_length|].
    rewrite Hrow. apply lon_order_bound.
Qed.

Lemma rectangular_mean_over_time la lo frames :
  rectangular (mean_over_time la lo frames).
Proof.
  split; cbn [data lat lon mean_over_time].
  - by rewrite length_fmap, length_seq.
  - apply Forall_fmap, Forall_true. intros i. simpl.
    by rewrite length_fmap, length_seq.
Qed.

Lemma cell_at_mean_over_time la lo frames i j :
  (i < length la)%nat → (j < length lo)%nat →
  cell_at (mean_over_time la lo frames) i j
  = Some (nanmean (omap (λ f, f !! i ≫= (.!! j)) frames)).
Proof.
  intros Hi Hj. unfold cell_at; cbn [data mean_over_time].
  rewrite list_lookup_fmap, lookup_seq_lt by done. simpl.
  by rewrite list_lookup_fmap, lookup_seq_lt.
Qed.

Lemma cell_at_bounds g i j c :
  rectangular g → cell_at g i j = Some c →
  (i < length (lat g))%nat ∧ (j < length (lon g))%nat.
Proof.
  intros [Hlen Hrows]. unfold cell_at.
  destruct (data g !! i) as [row|] eqn:Hrow; simpl; [|done].
  intros Hc. split.
  - rewrite <- Hlen. by eapply lookup_lt_Some.
  - rewrite Forall_forall in Hrows.
    rewrite <- (Hrows row) by (by eapply list_elem_of_lookup_2).
    by eapply lookup_lt_Some.
Qed.

Lemma cell_at_defined g i j :
  rectangular g → (i < length (lat g))%nat → (j < length (lon g))%nat →
  is_Some (cell_at g i j).
Proof.
  intros [Hlen Hrows] Hi Hj. unfold cell_at.
  rewrite <- Hlen in Hi. apply lookup_lt_is_Some in Hi as [row Hrow].
  rewrite Hrow. simpl. apply lookup_lt_is_Some.
  rewrite Forall_forall in Hrows.
  rewrite (Hrows row) by (by eapply list_elem_of_lookup_2). done.
Qed.

Lemma print_stats_ok g i j c : cell_at g i j = Some c → print_stats g = Ok ().
Proof.
  unfold cell_at, print_stats.
  destruct (data g !! i) as [row|] eqn:Hrow; simpl; [|done].
  intros Hc. destruct (concat (data g)) eqn:Hnil; [|done].
  assert (Hin : c ∈ concat (data g)).
  { apply list_elem_of_In, in_concat. exists row.
    split; apply list_elem_of_In; by eapply list_elem_of_lookup_2. }
  rewrite Hnil in Hin. by apply elem_of_nil in Hin.
Qed.

Lemma mean_of_nothing_all_nan la lo : all_nan (mean_over_time la lo []).
Proof.
  intros i j c Hc.
  destruct (cell_at_bounds _ _ _ _ (rectangular_mean_over_time la lo []) Hc)
    as [Hi Hj].
  rewrite cell_at_mean_over_time in Hc by done. by injection Hc as <-.
Qed.

Lemma all_nan_fix_lon g : rectangular g → all_nan g → all_nan (fix_lon g).
Proof.
  intros Hr Hg i j' c. rewrite cell_at_fix_lon by done.
  destruct (lon_order g !! j') as [j|]; simpl; [|done]. apply Hg.
Qed.

Lemma nansum_Num (xs : list Q) : nansum (Num <$> xs) = Num (Qsum xs).
Proof.
  induction xs as [|x xs IH]; [done|].
  cbn [fmap list_fmap nansum foldr is_nan]. fold (fmap Num xs).
  fold (nansum (Num <$> xs)). by rewrite IH.
Qed.

Lemma count_numbers_Num (xs : list Q) : count_numbers (Num <$> xs) = length xs.
Proof.
  unfold count_numbers. induction xs as [|x xs IH]; [done|].
  cbn [fmap list_fmap]. rewrite filter_cons_True by done.
  simpl. f_equal. exact IH.
Qed.

Lemma nanmean_Num (xs : list Q) :
  xs ≠ [] →
  nanmean (Num <$> xs)
  = Num (Qsum xs / inject_Z (Z.of_nat (length xs))).
Proof.
  intros Hxs. unfold nanmean. rewrite nansum_Num, count_numbers_Num.
  unfold cdiv.
  destruct (Qeq_bool (inject_Z (Z.of_nat (length xs))) 0) eqn:Hz; [|done].
  apply Qeq_bool_iff in Hz. destruct xs; [done|].
  unfold Qeq in Hz. simpl in Hz. lia.
Qed.
End loader.

Lemma omap_frames_Num (frames : list (list (list cell))) i j (xs : list Q) :
  Forall2 (λ f x, f !! i ≫= (.!! j) = Some (Num x)) frames xs →
  omap (λ f, f !! i ≫= (.!! j)) frames = Num <$> xs.
Proof.
  unfold omap. induction 1 as [|f x frames xs Hfx _ IH]; [done|].
  cbn [list_omap]. rewrite Hfx. cbn [fmap list_fmap]. f_equal. exact IH.
Qed.

(** C5 (as amended).  When the standard run of a scenario carries a time
    dimension that is present and empty, next to a no-fire field on the
    same non-empty grid, the load does not fail: it returns the fields, and
    the baseline and the wildfire field are NaN at every cell.  When the
    time dimension is present and not empty, a cell that holds a number in
    every frame is collapsed to the arithmetic mean of those numbers. *)
Theorem loader_time_dimension (fs : gmap string (gmap string DataArray))
    (year : Z) (scenario : string) (ds_b ds_n : gmap string DataArray)
    (la lo : list Q) (a : gmap string string) (g : Grid) :
  (2 ≤ String.length scenario)%nat →
  fs !! scenario_path year scenario = Some ds_b →
  ds_b !! "pm25" = Some (Series la lo [] a) →
  fs !! scenario_nofire_path year scenario = Some ds_n →
  ds_n !! "pm25" = Some (Field g) →
  lat g = la → lon g = lo → rectangular g → la ≠ [] → lo ≠ [] →
  (∃ w b n, process_scenario_data fs year scenario = Ok (w, b, n) ∧
            b = fix_lon (mean_over_time la lo []) ∧
            is_Some (cell_at b 0 0) ∧ all_nan b ∧ all_nan w) ∧
  (∀ la' lo' frames a' i j xs,
     frames ≠ [] → (i < length la')%nat → (j < length lo')%nat →
     Forall2 (λ f x, f !! i ≫= (.!! j) = Some (Num x)) frames xs →
     cell_at (collapse_time (Series la' lo' frames a')) i j
     = Some (Num (Qsum xs / inject_Z (Z.of_nat (length frames))))).
Proof.
  intros Hlen Hb Hpb Hn Hpn Hlat Hlon Hg Hla Hlo. split.
  - set (b := fix_lon (mean_over_time la lo [])).
    set (n := fix_lon g).
    assert (Hrb : rectangular b)
      by apply rectangular_fix_lon, rectangular_mean_over_time.
    assert (Hrn : rectangular n) by by apply rectangular_fix_lon.
    assert (Hsame : same_coords b n).
    { split; unfold b, n, fix_lon; cbn [lat lon mean_over_time].
      - rewrite Hlat. apply Qs_eqb_refl.
      - rewrite Hlon. apply Qs_eqb_refl. }
    assert (Hnan : all_nan b).
    { apply all_nan_fix_lon; [apply rectangular_mean_over_time|].
      apply mean_of_nothing_all_nan. }
    assert (Hb00 : is_Some (cell_at b 0 0)).
    { apply cell_at_defined; [done|..]; unfold b.
      - cbn [fix_lon lat mean_over_time]. destruct la; [done | simpl; lia].
      - rewrite length_lon_fix_lon. cbn [lon mean_over_time].
        destruct lo; [done | simpl; lia]. }
    assert (Hn00 : is_Some (cell_at n 0 0)).
    { apply cell_at_defined; [done|..]; unfold n.
      - cbn [fix_lon lat]. rewrite Hlat. destruct la; [done | simpl; lia].
      - rewrite length_lon_fix_lon, Hlon. destruct lo; [done | simpl; lia]. }
    pose proof (xr_sub_same_coords b n Hsame Hrb Hrn) as Hsub.
    set (w := {| lat := lat b; lon := lon b;
                 data := zip_with (zip_with csub) (data b) (data n);
                 attrs := ∅ |}) in Hsub.
    destruct (xr_sub_elementwise b n w Hsame Hrb Hrn Hsub) as (_ & _ & Hw).
    exists w, b, n. split; [|repeat split; try done].
    + unfold process_scenario_data.
      apply Nat.ltb_ge in Hlen. rewrite Hlen.
      unfold scenario_path in Hb. unfold scenario_nofire_path in Hn.
      unfold open_dataset, getitem.
      cbv beta iota delta [mbind result_bind].
      rewrite Hb, Hn, Hpb, Hpn. cbn [collapse_time].
      fold b n. rewrite Hsub.
      destruct Hb00 as [x Hx], Hn00 as [y Hy].
      rewrite (print_stats_ok w 0 0 (csub x y)); [done|].
      by rewrite Hw, Hx, Hy.
    + intros i j c. rewrite Hw.
      destruct (cell_at b i j) as [x|] eqn:Hx; simpl; [|done].
      apply Hnan in Hx as ->.
      destruct (cell_at n i j) as [y|]; simpl; [|done].
      intros [= <-]. by destruct y.
  - intros la' lo' frames a' i j xs Hframes Hi Hj Hxs. cbn [collapse_time].
    rewrite cell_at_mean_over_time by done.
    rewrite (omap_frames_Num _ _ _ _ Hxs).
    rewrite nanmean_Num, (Forall2_length _ _ _ Hxs); [done|].
    intros ->. apply Forall2_nil_inv_r in Hxs. done.
Qed.

(** ** Regional Aggregator *)

Section selection.
Context {A : Type}.
Implicit Types (ps : list (Q * A)) (xs : list Q).

Lemma searchsorted_left_0 xs lo :
  Forall (λ y, (lo <= y)%Q) xs → searchsorted_left xs lo = 0%nat.
Proof.
  unfold searchsorted_left. induction 1 as [|y xs Hy _ IH]; [done|].
  simpl. destruct (Qltb y lo) eqn:Hc; [|done].
  apply Qltb_lt in Hc. lra.
Qed.

Lemma searchsorted_right_0 xs hi :
  Forall (λ y, (hi < y)%Q) xs → searchsorted_right xs hi = 0%nat.
Proof.
  unfold searchsorted_right. induction 1 as [|y xs Hy _ IH]; [done|].
  simpl. destruct (Qle_bool y hi) eqn:Hc; [|done].
  apply Qle_bool_iff in Hc. lra.
Qed.

(** On an ascending index the slice of labels is the filter by the
    inclusive bounds. *)
Lemma slice_filter ps lo hi :
  StronglySorted Qle ps.*1 →
  slice (searchsorted_left ps.*1 lo) (searchsorted_right ps.*1 hi) ps
  = List.filter (λ p, in_bounds lo hi p.1) ps.
Proof.
  induction ps as [|[x a] ps IH]; [done|].
  cbn [fmap list_fmap fst]. fold (fmap (M := list) (@fst Q A) ps).
  intros Hs. apply StronglySorted_inv in Hs as [Hs Hx].
  specialize (IH Hs). unfold slice in *.
  unfold searchsorted_left, searchsorted_right in *.
  cbn [List.filter fst].
  replace (in_bounds lo hi x) with (Qle_bool lo x && Qle_bool x hi)
    by reflexivity.
  destruct (Qltb x lo) eqn:Hlo.
  - apply Qltb_lt in Hlo.
    assert (Hf : Qle_bool lo x = false) by (apply Qle_bool_false; lra).
    rewrite Hf. cbn [andb length].
    destruct (Qle_bool x hi) eqn:Hhi; cbn [length].
    + exact IH.
    + apply Qle_bool_false in Hhi.
      rewrite <- IH.
      fold (searchsorted_right ps.*1 hi).
      rewrite searchsorted_right_0; [done|].
      eapply Forall_impl; [exact Hx|]. simpl. intros y Hy. lra.
  - apply not_true_iff_false in Hlo. rewrite Qltb_lt in Hlo.
    apply Qnot_lt_le in Hlo.
    assert (Ht : Qle_bool lo x = true) by by apply Qle_bool_iff.
    rewrite Ht. cbn [andb].
    fold (searchsorted_left ps.*1 lo) in *.
    rewrite searchsorted_left_0 in IH |- *;
      [| eapply Forall_impl; [exact Hx|]; simpl; intros y Hy; lra ..].
    rewrite Nat.sub_0_r in *. cbn [drop] in *.
    destruct (Qle_bool x hi) eqn:Hhi; cbn [length].
    + cbn [take]. f_equal. exact IH.
    + apply Qle_bool_false in Hhi.
      fold (searchsorted_right ps.*1 hi) in *.
      rewrite searchsorted_right_0 in IH |- *;
        [| eapply Forall_impl; [exact Hx|]; simpl; intros y Hy; lra ..].
      by rewrite <- IH.
Qed.
End selection.

Section aggregation.
Variable cos_deg : Q → Q.
Implicit Types (g : Grid) (r : Region).

Lemma slice_zip {A B} (a b : nat) (l : list A) (k : list B) :
  slice a b (zip l k) = zip (slice a b l) (slice a b k).
Proof. unfold slice. by rewrite zip_with_drop, zip_with_take. Qed.

Lemma length_slice {A} (a b : nat) (l : list A) :
  length (slice a b l) = (b - a) `min` (length l - a).
Proof. unfold slice. by rewrite length_take, length_drop. Qed.

(** Selecting along a dimension: the labels and the items that are kept
    are those of the pairs whose label is within the bounds. *)
Lemma sel_zip {A} (coords : list Q) (l : list A) lo hi :
  StronglySorted Qle coords → length l = length coords →
  let kept := List.filter (λ p, in_bounds lo hi p.1) (zip coords l) in
  slice (searchsorted_left coords lo) (searchsorted_right coords hi) coords
    = kept.*1 ∧
  slice (searchsorted_left coords lo) (searchsorted_right coords hi) l
    = kept.*2.
Proof.
  intros Hs Hlen kept.
  assert (Hk : zip (slice (searchsorted_left coords lo)
                          (searchsorted_right coords hi) coords)
                   (slice (searchsorted_left coords lo)
                          (searchsorted_right coords hi) l) = kept).
  { rewrite <- slice_zip. unfold kept.
    rewrite <- (slice_filter (zip coords l)).
    - rewrite fst_zip by lia. done.
    - rewrite fst_zip by lia. done. }
  rewrite <- Hk. split.
  - rewrite fst_zip; [done|]. rewrite !length_slice. lia.
  - rewrite snd_zip; [done|]. rewrite !length_slice. lia.
Qed.

Lemma filter_subset {A} (f : A → bool) (l : list A) x :
  x ∈ List.filter f l → x ∈ l.
Proof.
  rewrite !list_elem_of_In. intros H. by apply filter_In in H as [? _].
Qed.

Lemma kept_rows_in g r p : p ∈ kept_rows g r → p.2 ∈ data g.
Proof.
  intros H. apply filter_subset in H. destruct p as [la row].
  by apply elem_of_zip_r in H.
Qed.

Lemma sel_box_shape g r :
  rectangular g → StronglySorted Qle (lat g) → StronglySorted Qle (lon g) →
  lat (sel_box g r) = (kept_rows g r).*1 ∧
  data (sel_box g r) = (λ p, (kept_cells g r p.2).*2) <$> kept_rows g r.
Proof.
  intros [Hlen Hrows] Hlat Hlon.
  destruct (sel_zip (lat g) (data g) (lat_min r) (lat_max r) Hlat Hlen)
    as [H1 H2].
  unfold sel_box; cbn [lat data]. split; [exact H1|].
  rewrite H2. fold (kept_rows g r). rewrite <- list_fmap_compose.
  apply list_fmap_ext. intros i p Hp. simpl.
  apply list_elem_of_lookup_2, kept_rows_in in Hp.
  rewrite Forall_forall in Hrows.
  by destruct (sel_zip (lon g) p.2 (lon_min r) (lon_max r) Hlon
                 (Hrows _ Hp)) as [_ ->].
Qed.
End aggregation.

Section weighted_mean_formula.
Variable cos_deg : Q → Q.
Implicit Types (g : Grid) (r : Region).

Lemma concat_fmap_bind {A B} (f : A → list B) (l : list A) :
  concat (f <$> l) = l ≫= f.
Proof.
  induction l as [|x l IH]; [done|].
  cbn [fmap list_fmap concat mbind list_bind]. f_equal. exact IH.
Qed.

Lemma zip_with_fmap_same {A B C D} (f : B → C → D) (g1 : A → B)
    (g2 : A → C) (l : list A) :
  zip_with f (g1 <$> l) (g2 <$> l) = (λ x, f (g1 x) (g2 x)) <$> l.
Proof. by rewrite zip_with_fmap_l, zip_with_fmap_r, zip_with_diag. Qed.

Lemma Forall2_diag_elem_of {A} (P : A → A → Prop) (l : list A) :
  (∀ x, x ∈ l → P x x) → Forall2 P l l.
Proof.
  induction l as [|x l IH]; intros H; constructor.
  - apply H. left.
  - apply IH. intros y Hy. apply H. by right.
Qed.

(** A sum of numbers that are pairwise equal to the terms of a rational
    sum. *)
Lemma nansum_related {B} (F : B → Q) (cs : list cell) (ws : list B) :
  Forall2 (λ c w, ∃ q, c = Num q ∧ (q == F w)%Q) cs ws →
  ∃ s, nansum cs = Num s ∧ (s == Qsum (F <$> ws))%Q.
Proof.
  induction 1 as [|c w cs ws (q & -> & Hq) _ (s & Hs & Heq)].
  { exists 0%Q. done. }
  exists (q + s)%Q. split.
  - cbn [nansum foldr is_nan]. fold (nansum cs). by rewrite Hs.
  - cbn [fmap list_fmap Qsum foldr]. fold (fmap F ws). fold (Qsum (F <$> ws)).
    by rewrite Hq, Heq.
Qed.

Lemma cdiv_Num_proper (a a' b b' : Q) :
  (a == a')%Q → (b == b')%Q →
  ceq (cdiv (Num a) (Num b)) (cdiv (Num a') (Num b')).
Proof.
  intros Ha Hb. unfold cdiv. rewrite Hb, Ha.
  destruct (Qeq_bool b' 0); simpl.
  - by destruct (a' ?= 0)%Q.
  - by rewrite Ha, Hb.
Qed.

(** The products and the weight factors, row by row of the window. *)
Lemma weighted_mean_rows g r :
  rectangular g → StronglySorted Qle (lat g) → StronglySorted Qle (lon g) →
  weighted_mean cos_deg g r
  = cdiv
      (nansum (kept_rows g r ≫= λ p,
         (λ c, cmul c.2 (cmul (Num 1) (Num (cos_deg p.1))))
           <$> kept_cells g r p.2))
      (nansum (kept_rows g r ≫= λ p,
         (λ c, cmul (Num 1) (Num (cos_deg p.1)))
           <$> kept_cells g r p.2)).
Proof.
  intros Hr Hlat Hlon. unfold weighted_mean.
  destruct (sel_box_shape g r Hr Hlat Hlon) as [-> ->].
  rewrite <- !list_fmap_compose.
  rewrite !zip_with_fmap_same.
  rewrite !concat_fmap_bind. f_equal; f_equal.
  - apply list_bind_ext; [|done]. intros p. simpl.
    rewrite zip_with_fmap_r, zip_with_diag.
    by rewrite <- list_fmap_compose.
  - apply list_bind_ext; [|done]. intros p. simpl.
    by rewrite <- !list_fmap_compose.
Qed.

Lemma kept_cells_in g r row c : c ∈ kept_cells g r row → c.2 ∈ row.
Proof.
  intros H. apply filter_subset in H. destruct c as [lo c].
  by apply elem_of_zip_r in H.
Qed.

Lemma window_cells_in g r la c :
  (la, c) ∈ window_cells g r →
  in_bounds (lat_min r) (lat_max r) la = true ∧
  ∃ row, row ∈ data g ∧ c ∈ row.
Proof.
  unfold window_cells. intros H.
  apply list_elem_of_bind in H as (p & Hc & Hp).
  apply list_elem_of_fmap in Hc as (x & [= -> ->] & Hx).
  split.
  - apply list_elem_of_In, filter_In in Hp. by destruct Hp.
  - exists p.2. split; [by apply kept_rows_in in Hp|].
    by apply kept_cells_in in Hx.
Qed.

(** The weighted mean of the code is the weighted mean of the
    specification. *)
Lemma weighted_mean_spec g r :
  rectangular g → numeric g →
  StronglySorted Qle (lat g) → StronglySorted Qle (lon g) →
  ceq (weighted_mean cos_deg g r) (spec_weighted_mean cos_deg g r).
Proof.
  intros Hr Hnum Hlat Hlon. rewrite weighted_mean_rows by done.
  unfold spec_weighted_mean.
  destruct (nansum_related (λ p, cell_value p.2 * cos_deg p.1)%Q
    (kept_rows g r ≫= λ p,
       (λ c, cmul c.2 (cmul (Num 1) (Num (cos_deg p.1))))
         <$> kept_cells g r p.2)
    (window_cells g r)) as (s1 & -> & Hs1).
  { unfold window_cells. apply Forall2_bind, Forall2_diag_elem_of.
    intros p Hp. apply Forall2_fmap_2, Forall2_diag_elem_of.
    intros c Hc. apply kept_rows_in in Hp. apply kept_cells_in in Hc.
    unfold numeric in Hnum. rewrite Forall_forall in Hnum.
    specialize (Hnum _ Hp). rewrite Forall_forall in Hnum.
    destruct (Hnum _ Hc) as [q Hq]. rewrite Hq. simpl.
    eexists. split; [reflexivity|]. ring. }
  destruct (nansum_related (λ p, cos_deg p.1)
    (kept_rows g r ≫= λ p,
       (λ c, cmul (Num 1) (Num (cos_deg p.1))) <$> kept_cells g r p.2)
    (window_cells g r)) as (s2 & -> & Hs2).
  { unfold window_cells. apply Forall2_bind, Forall2_diag_elem_of.
    intros p Hp. apply Forall2_fmap_2, Forall2_diag_elem_of.
    intros c Hc. simpl. eexists. split; [reflexivity|]. ring. }
  by apply cdiv_Num_proper.
Qed.

Lemma ceq_trans x y z : ceq x y → ceq y z → ceq x z.
Proof.
  destruct x, y, z; simpl; try done. intros H1 H2. by rewrite H1.
Qed.

Lemma Qsum_pos (l : list Q) :
  l ≠ [] → Forall (λ x, (0 < x)%Q) l → (0 < Qsum l)%Q.
Proof.
  intros Hl Hall. induction Hall as [|x l Hx Hall IH]; [done|].
  cbn [Qsum foldr]. fold (Qsum l).
  destruct l as [|y l]; [simpl; lra|].
  assert (0 < Qsum (y :: l))%Q by by apply IH. lra.
Qed.

Lemma Qsum_constant {B} (F : B → Q) (v : B → Q) (c : Q) (l : list B) :
  Forall (λ p, (v p == c)%Q) l →
  (Qsum ((λ p, v p * F p)%Q <$> l) == c * Qsum (F <$> l))%Q.
Proof.
  induction 1 as [|p l Hp _ IH]; [simpl; ring|].
  cbn [fmap list_fmap Qsum foldr].
  fold (fmap (λ p, v p * F p)%Q l). fold (fmap F l).
  fold (Qsum ((λ p, v p * F p)%Q <$> l)). fold (Qsum (F <$> l)).
  rewrite IH, Hp. ring.
Qed.

Lemma regions_latitudes name r :
  (name, r) ∈ regions → (-90 < lat_min r)%Q ∧ (lat_max r < 90)%Q.
Proof.
  unfold regions. intros H.
  repeat (apply elem_of_cons in H as [[= -> ->]|H]);
    [..|by apply elem_of_nil in H]; simpl; split; reflexivity.
Qed.

Lemma in_bounds_spec lo hi x :
  in_bounds lo hi x = true ↔ (lo <= x)%Q ∧ (x <= hi)%Q.
Proof. unfold in_bounds. by rewrite andb_true_iff, !Qle_bool_iff. Qed.

(** The dictionary of dictionaries at a region and a field name. *)
Lemma regional_means_lookup (data_dict : list (string * Grid)) name g
    region_name r :
  NoDup data_dict.*1 → (name, g) ∈ data_dict →
  (region_name, r) ∈ regions →
  ∃ col, calculate_regional_means cos_deg data_dict !! region_name = Some col
         ∧ col !! name = Some (weighted_mean cos_deg g r).
Proof.
  intros Hnd Hg Hr. eexists. split.
  - unfold calculate_regional_means. apply lookup_dict_literal.
    + rewrite <- list_fmap_compose.
      apply (bool_decide_unpack (NoDup regions.*1)). vm_compute. exact I.
    + apply list_elem_of_fmap. by exists (region_name, r).
  - apply lookup_dict_literal.
    + rewrite <- list_fmap_compose. exact Hnd.
    + apply list_elem_of_fmap. by exists (name, g).
Qed.
End weighted_mean_formula.


(** C8.  With a cosine that is positive between -90 and 90 degrees, the
    regional mean of a field that holds the same number [c] at every cell
    is [c], for every region whose window of the grid is not empty. *)
Theorem constant_field_regional_mean (cos_deg : Q → Q)
    (data_dict : list (string * Grid)) (name : string) (g : Grid)
    (region_name : string) (r : Region) (c : Q) :
  (∀ x, (-90 < x)%Q → (x < 90)%Q → (0 < cos_deg x)%Q) →
  NoDup data_dict.*1 → (name, g) ∈ data_dict →
  (region_name, r) ∈ regions →
  rectangular g →
  StronglySorted Qle (lat g) → StronglySorted Qle (lon g) →
  Forall (Forall (λ x, x = Num c)) (data g) →
  window_cells g r ≠ [] →
  ∃ col m,
    calculate_regional_means cos_deg data_dict !! region_name = Some col ∧
    col !! name = Some m ∧
    ceq m (Num c).
Proof.
  intros Hcos Hnd Hg Hr Hrect Hlat Hlon Hconst Hwin.
  destruct (regional_means_lookup cos_deg data_dict name g region_name r)
    as (col & Hcol & Hm); [done..|].
  exists col, (weighted_mean cos_deg g r). repeat split; [done..|].
  eapply ceq_trans.
  { apply weighted_mean_spec; [done| |done..].
    eapply Forall_impl; [exact Hconst|]. simpl. intros row Hrow.
    eapply Forall_impl; [exact Hrow|]. simpl. intros x ->. by exists c. }
  unfold spec_weighted_mean.
  set (ws := window_cells g r) in *.
  assert (Hvals : Forall (λ p : Q * cell, (cell_value p.2 == c)%Q) ws).
  { apply Forall_forall. intros [la x] Hx.
    apply window_cells_in in Hx as (_ & row & Hrow & Hx).
    rewrite Forall_forall in Hconst. specialize (Hconst _ Hrow).
    rewrite Forall_forall in Hconst. rewrite (Hconst _ Hx). done. }
  assert (Hpos : (0 < Qsum ((λ p : Q * cell, cos_deg p.1) <$> ws))%Q).
  { apply Qsum_pos.
    - by destruct ws.
    - apply Forall_fmap, Forall_forall. intros [la x] Hx. simpl.
      apply window_cells_in in Hx as (Hb & _).
      apply in_bounds_spec in Hb as [Hlo Hhi].
      destruct (regions_latitudes _ _ Hr). apply Hcos; lra. }
  pose proof (Qsum_constant (λ p : Q * cell, cos_deg p.1)
                (λ p, cell_value p.2) c ws Hvals) as Hs1.
  unfold cdiv.
  destruct (Qeq_bool (Qsum ((λ p : Q * cell, cos_deg p.1) <$> ws)) 0) eqn:Hz.
  - apply Qeq_bool_iff in Hz. lra.
  - simpl. rewrite Hs1. field. lra.
Qed.

(** ** Entry point *)

Lemma script_exit_status env argv :
  (run_visualization.script env argv).1 = 0%Z ∨
  (run_visualization.script env argv).1 = 1%Z.
Proof.
  unfold run_visualization.script.
  destruct (run_visualization.listdir_error env); [by right|].
  set (d := if (1 <? length argv)%nat then _ else _). clearbody d.
  unfold run_visualization.main.
  cbv beta iota delta [mbind mret run_visualization.prog_bind
    run_visualization.prog_ret run_visualization.emit
    run_visualization.set_output_directory
    run_visualization.setup_visualization_env
    run_visualization.raise_if run_visualization.try_except].
  destruct (run_visualization.makedirs env d); [by right|].
  destruct (run_visualization.visualize env d) as [[[]|e] log]; simpl; auto.
Qed.

(** Once the output directory is set up, [main] returns 0 when the body of
    its [try] block completes, and returns 1 after printing the error
    message and the traceback when the body raises; what the body wrote up
    to there is all that was written. *)
Lemma main_try_block env out_dir :
  run_visualization.makedirs env out_dir = None →
  let intro :=
    [run_visualization.Print "Starting wildfire PM2.5 visualization process...";
     run_visualization.Print
       ("Figures will be saved to: "
          +:+ run_visualization.abspath env out_dir)] in
  match run_visualization.visualize env out_dir with
  | (Ok _, log) => run_visualization.main env out_dir = (Ok 0%Z, intro ++ log)
  | (Raise e, log) =>
      run_visualization.main env out_dir
      = (Ok 1%Z,
         intro ++ log ++
         [run_visualization.Print
            ("Error during visualization process: "
               +:+ run_visualization.exn_str e);
          run_visualization.PrintExc e])
  end.
Proof.
  intros Hmk. unfold run_visualization.main.
  cbv beta iota delta [mbind mret run_visualization.prog_bind
    run_visualization.prog_ret run_visualization.emit
    run_visualization.set_output_directory
    run_visualization.setup_visualization_env
    run_visualization.raise_if run_visualization.try_except].
  rewrite Hmk.
  destruct (run_visualization.visualize env out_dir) as [[[]|e] log]; simpl.
  - by rewrite app_nil_r.
  - done.
Qed.


(** C9, at an output directory that cannot be created: the exception of
    [set_output_directory] leaves [main], which returns no exit code and
    prints no error message; the interpreter prints the traceback and the
    process exits with status 1. *)
Theorem setup_error_escapes_main :
  run_visualization.main run_visualization.readonly_env "out"
  = (Raise (OSError "Permission denied"),
     [run_visualization.Print
        "Starting wildfire PM2.5 visualization process..."]) ∧
  run_visualization.script run_visualization.readonly_env
    ["run_visualization.py"; "out"]
  = (1%Z,
     [run_visualization.Print
        "Starting wildfire PM2.5 visualization process...";
      run_visualization.PrintExc (OSError "Permission denied")]) ∧
  existsb run_visualization.is_error_message
    (run_visualization.script run_visualization.readonly_env
       ["run_visualization.py"; "out"]).2 = false.
Proof. repeat split; vm_compute; reflexivity. Qed.

(** ** The properties on sample inputs *)

Lemma index_of_None x xs : index_of x xs = None → ¬ InA Qeq x xs.
Proof.
  induction xs as [|y xs IH]; simpl; intros H Hin.
  { by apply InA_nil in Hin. }
  destruct (Qeq_bool x y) eqn:Hxy; [done|].
  apply Qeq_bool_neq in Hxy.
  apply InA_cons in Hin as [Hin|Hin]; [done|].
  destruct (index_of x xs); [done|]. by apply IH.
Qed.

Lemma uniqueb_NoDupA xs : uniqueb xs = true → NoDupA Qeq xs.
Proof.
  induction xs as [|x xs IH]; simpl; intros H; constructor.
  - apply andb_true_iff in H as [H _]. apply negb_true_iff in H.
    apply bool_decide_eq_false in H. apply index_of_None.
    destruct (index_of x xs); [|done]. exfalso. apply H. by eexists.
  - apply andb_true_iff in H as [_ H]. by apply IH.
Qed.

Ltac solve_Q := unfold Qle, Qlt; simpl; lia.

Lemma rectangular_sample_grid : rectangular sample_grid.
Proof. split; [reflexivity | repeat constructor]. Qed.

Lemma rectangular_normalized_grid c : rectangular (normalized_grid c).
Proof. split; [reflexivity | repeat constructor]. Qed.

Lemma normalized_grid_ascending c :
  StronglySorted Qle (lat (normalized_grid c)) ∧
  StronglySorted Qle (lon (normalized_grid c)).
Proof. split; simpl; repeat constructor; solve_Q. Qed.

Lemma approx_cos_deg_pos x :
  (-90 < x)%Q → (x < 90)%Q → (0 < approx_cos_deg x)%Q.
Proof.
  intros H1 H2. unfold approx_cos_deg.
  assert (Hn : (0 < 32400 - 4 * x * x)%Q) by nra.
  assert (Hd : (0 < 32400 + x * x)%Q) by nra.
  apply Qlt_shift_div_l; [done|]. lra.
Qed.

Lemma solar_potential_clamp_witness :
  ceq (uncapped_change (Num (1771 # 48))) (Num (-100)) ∧
  cell_at (calculate_solar_potential_change cap_grid) 0 0
    = Some (uncapped_change (Num (1771 # 48))) ∧
  cell_at (calculate_solar_potential_change cap_grid) 0 1 = Some (Num (-100)).
Proof.
  split; [vm_compute; reflexivity|]. split.
  - apply (solar_potential_clamp cap_grid 0 0 (Num (1771 # 48)) eq_refl).
    vm_compute. reflexivity.
  - apply (solar_potential_clamp cap_grid 0 1 (Num 4000) eq_refl).
    vm_compute. reflexivity.
Defined.

Lemma fix_lon_relabels_and_reorders_witness :
  lon (fix_lon sample_grid) = [-120; 0; 120]%Q ∧
  StronglySorted Qlt (lon (fix_lon sample_grid)) ∧
  ∃ j', lon (fix_lon sample_grid) !! j' = Some (normalized_lon 240) ∧
        cell_at (fix_lon sample_grid) 1 j' = Some (Num 6).
Proof.
  assert (H1 : rectangular sample_grid) by exact rectangular_sample_grid.
  assert (H2 : NoDupA Qeq (lon sample_grid))
    by (apply uniqueb_NoDupA; vm_compute; reflexivity).
  assert (H3 : Forall (λ v, (0 <= v)%Q ∧ (v < 360)%Q) (lon sample_grid))
    by (repeat constructor; solve_Q).
  destruct (fix_lon_relabels_and_reorders sample_grid H1 H2 H3)
    as (Hs & _ & _ & _ & Hcell & _).
  split; [vm_compute; reflexivity|]. split; [exact Hs|].
  apply (Hcell 1%nat 2%nat 240%Q (Num 6)); reflexivity.
Defined.


Lemma solar_potential_bounds_witness :
  ∃ r, cell_at (calculate_solar_potential_change sample_grid) 1 2
         = Some (Num r) ∧
       (-100 <= r)%Q ∧ (r <= 0)%Q.
Proof.
  destruct (solar_potential_bounds sample_grid 1 2 6 eq_refl)
    as (r & Hr & Hlo & Hhi & _).
  exists r. split; [exact Hr|]. split; [exact Hlo|].
  apply Hhi. solve_Q.
Defined.

(** C4 as stated fails: where the standard run is below the no-fire run
    the wildfire field is negative and the solar-potential change is
    above zero. *)
Lemma solar_potential_above_zero :
  ∃ w r, xr_sub (one_cell 0) (one_cell 1) = Ok w ∧
         cell_at w 0 0 = Some (Num (-1)) ∧
         cell_at (calculate_solar_potential_change w) 0 0 = Some (Num r) ∧
         (0 < r)%Q.
Proof.
  eexists _, _. split; [vm_compute; reflexivity|].
  split; [vm_compute; reflexivity|].
  split; [vm_compute; reflexivity|]. solve_Q.
Qed.

Lemma loader_time_dimension_witness :
  ∃ w b n, process_scenario_data empty_time_fs 2050 "45" = Ok (w, b, n) ∧
           is_Some (cell_at b 0 0) ∧ all_nan b ∧ all_nan w.
Proof.
  destruct (loader_time_dimension empty_time_fs 2050 "45"
              {[ "pm25" := Series [-10; 10]%Q [0; 120; 240]%Q [] ∅ ]}
              (const_file 4) [-10; 10]%Q [0; 120; 240]%Q ∅ (const_grid 4))
    as [(w & b & n & Hrun & _ & Hsome & Hb & Hw) _].
  - simpl. lia.
  - vm_compute. reflexivity.
  - vm_compute. reflexivity.
  - vm_compute. reflexivity.
  - vm_compute. reflexivity.
  - reflexivity.
  - reflexivity.
  - split; [reflexivity | repeat constructor].
  - discriminate.
  - discriminate.
  - exists w, b, n. repeat split; assumption.
Defined.

(** C5 as stated fails: with a time dimension that is present and empty
    the load returns its three fields. *)
Lemma loader_empty_time_succeeds :
  (empty_time_fs !! scenario_path 2050 "45" ≫= (.!! "pm25"))
    = Some (Series [-10; 10]%Q [0; 120; 240]%Q [] ∅) ∧
  has_time (Series [-10; 10]%Q [0; 120; 240]%Q [] ∅) = true ∧
  ∃ fields, process_scenario_data empty_time_fs 2050 "45" = Ok fields.
Proof.
  split; [vm_compute; reflexivity|]. split; [reflexivity|].
  assert (H : is_ok (process_scenario_data empty_time_fs 2050 "45") = true)
    by (vm_compute; reflexivity).
  destruct (process_scenario_data empty_time_fs 2050 "45") as [fields|e];
    [by exists fields | discriminate H].
Qed.

Lemma main_sample_runs : ∃ m, main sample_fs = Ok m.
Proof.
  assert (H : is_ok (main sample_fs) = true) by (vm_compute; reflexivity).
  destruct (main sample_fs) as [m|e]; [by exists m | discriminate H].
Defined.

Lemma main_returns_32_fields_witness :
  ∃ m, main sample_fs = Ok m ∧ size m = 32%nat.
Proof.
  destruct main_sample_runs as [m Hm]. exists m. split; [exact Hm|].
  exact (proj1 (main_returns_32_fields sample_fs m Hm)).
Defined.

(** C6 as stated fails: a successful run does not return 31 fields. *)
Lemma main_does_not_return_31_fields :
  ∃ m, main sample_fs = Ok m ∧ size m ≠ 31%nat.
Proof.
  assert (H : match main sample_fs with Ok m => size m | Raise _ => 0%nat end
              = 32%nat) by (vm_compute; reflexivity).
  destruct (main sample_fs) as [m|e]; [|discriminate H].
  exists m. split; [done|]. rewrite H. discriminate.
Qed.


Lemma constant_field_regional_mean_witness :
  ∃ col m,
    calculate_regional_means approx_cos_deg [("field", normalized_grid 6)]
      !! "Africa" = Some col ∧
    col !! "field" = Some m ∧ ceq m (Num 6).
Proof.
  apply (constant_field_regional_mean approx_cos_deg
           [("field", normalized_grid 6)] "field" (normalized_grid 6)
           "Africa" (mkRegion (-35) 35 (-20) 55) 6).
  - exact approx_cos_deg_pos.
  - apply NoDup_singleton.
  - apply list_elem_of_here.
  - unfold regions. find_item.
  - apply rectangular_normalized_grid.
  - apply normalized_grid_ascending.
  - apply normalized_grid_ascending.
  - repeat constructor.
  - vm_compute. discriminate.
Defined.



(* ===================================================================== *)
(** * Further properties of the pipeline *)
(* ===================================================================== *)

(** ** Longitude Normalizer, on any grid *)

Lemma isel_perm {A} (order : list nat) (l : list A) :
  order ≡ₚ seq 0 (length l) → isel order l ≡ₚ l.
Proof.
  intros Hp. unfold isel. rewrite Hp.
  change (isel (seq 0 (length l)) l ≡ₚ l). by rewrite isel_seq_all.
Qed.

(** X1.  On every rectangular grid [fix_lon] keeps the latitudes and the
    attributes, returns longitudes in ascending order that are a
    permutation of the adjusted input longitudes, keeps the grid
    rectangular, and makes every row a permutation of the row it comes
    from: no value is lost, duplicated or moved to another latitude. *)
Theorem fix_lon_keeps_values (g : Grid) :
  rectangular g →
  lat (fix_lon g) = lat g ∧
  attrs (fix_lon g) = attrs g ∧
  StronglySorted Qle (lon (fix_lon g)) ∧
  lon (fix_lon g) ≡ₚ adjust_lon <$> lon g ∧
  rectangular (fix_lon g) ∧
  Forall2 (λ row' row, row' ≡ₚ row) (data (fix_lon g)) (data g).
Proof.
  intros Hr. repeat split.
  - apply fix_lon_sorted.
  - apply lon_fix_lon_perm.
  - unfold fix_lon; cbn [data lat]. rewrite length_fmap. apply Hr.
  - apply (rectangular_fix_lon g Hr).
  - unfold fix_lon; cbn [data]. apply Forall2_fmap_l.
    apply Forall2_diag_elem_of. intros row Hrow. simpl.
    apply isel_perm. destruct Hr as [_ Hrows].
    rewrite Forall_forall in Hrows. rewrite (Hrows _ Hrow).
    rewrite argsort_perm. by rewrite length_fmap.
Qed.

Lemma adjust_lon_range v :
  (-180 < v)%Q → (v <= 540)%Q →
  (-180 < adjust_lon v)%Q ∧ (adjust_lon v <= 180)%Q.
Proof.
  intros H1 H2. unfold adjust_lon.
  destruct (Qltb 180 v) eqn:Hc.
  - apply Qltb_lt in Hc. lra.
  - apply not_true_iff_false in Hc. rewrite Qltb_lt in Hc. lra.
Qed.

(** X2.  Longitudes above -180 and at most 540, in particular longitudes
    between 0 and 360, come out of [fix_lon] above -180 and at most 180. *)
Theorem fix_lon_range (g : Grid) :
  Forall (λ v, (-180 < v)%Q ∧ (v <= 540)%Q) (lon g) →
  Forall (λ v, (-180 < v)%Q ∧ (v <= 180)%Q) (lon (fix_lon g)).
Proof.
  intros Hg. rewrite lon_fix_lon_perm. apply Forall_fmap.
  eapply Forall_impl; [exact Hg|]. simpl. intros v [H1 H2].
  by apply adjust_lon_range.
Qed.

(** ** Solar Potential Model, cell by cell *)

Lemma solar_cell_Num q :
  solar_cell (Num q)
  = if cltb (Num (-0.48 * q / 17.71 * 100)) (Num (-100))
    then Num (-100) else Num (-0.48 * q / 17.71 * 100).
Proof. reflexivity. Qed.

Lemma solar_cell_linear q :
  (q <= 1771 # 48)%Q →
  solar_cell (Num q) = Num (-0.48 * q / 17.71 * 100).
Proof.
  intros Hq. rewrite solar_cell_Num.
  destruct (cltb (Num (-0.48 * q / 17.71 * 100)) (Num (-100))) eqn:Hc;
    [|done].
  apply cltb_Num in Hc.
  assert (Hu : (-0.48 * q / 17.71 * 100 == q * (-4800 # 1771))%Q) by field.
  lra.
Qed.

(** X3.  The cap is reached exactly above 1771/48 (about 36.9) micrograms
    per cubic metre: up to there the change is the linear response, beyond
    it the change is -100. *)
Theorem solar_cap_threshold (q : Q) :
  solar_cell (Num q)
  = if Qle_bool q (1771 # 48) then Num (-0.48 * q / 17.71 * 100)
    else Num (-100).
Proof.
  rewrite solar_cell_Num.
  set (u := (-0.48 * q / 17.71 * 100)%Q).
  assert (Hu : (u == q * (-4800 # 1771))%Q) by (unfold u; field).
  destruct (Qle_bool q (1771 # 48)) eqn:Hq.
  - apply Qle_bool_iff in Hq.
    destruct (cltb (Num u) (Num (-100))) eqn:Hc; [|done].
    apply cltb_Num in Hc. lra.
  - apply Qle_bool_false in Hq.
    destruct (cltb (Num u) (Num (-100))) eqn:Hc; [done|].
    apply cltb_Num_false in Hc. lra.
Qed.

(** X4.  More smoke never means less loss: the solar-potential change is
    antitone in the PM2.5 concentration. *)
Theorem solar_cell_antitone (q1 q2 : Q) :
  (q1 <= q2)%Q →
  ∃ r1 r2, solar_cell (Num q1) = Num r1 ∧ solar_cell (Num q2) = Num r2 ∧
           (r2 <= r1)%Q.
Proof.
  intros Hq. rewrite !solar_cell_Num.
  set (u1 := (-0.48 * q1 / 17.71 * 100)%Q).
  set (u2 := (-0.48 * q2 / 17.71 * 100)%Q).
  assert (Hu1 : (u1 == q1 * (-4800 # 1771))%Q) by (unfold u1; field).
  assert (Hu2 : (u2 == q2 * (-4800 # 1771))%Q) by (unfold u2; field).
  destruct (cltb (Num u1) (Num (-100))) eqn:H1,
           (cltb (Num u2) (Num (-100))) eqn:H2;
    try apply cltb_Num in H1; try apply cltb_Num_false in H1;
    try apply cltb_Num in H2; try apply cltb_Num_false in H2;
    eexists _, _; (split; [reflexivity|]); (split; [reflexivity|]); lra.
Qed.

(** X5.  At every cell, whatever it holds: the output never compares below
    -100, and it is NaN exactly where the input is NaN (an infinite
    concentration gives -100, missing data stays missing). *)
Theorem solar_never_below_cap (g : Grid) (i j : nat) (p : cell) :
  cell_at g i j = Some p →
  ∃ c, cell_at (calculate_solar_potential_change g) i j = Some c ∧
       cltb c (Num (-100)) = false ∧ is_nan c = is_nan p.
Proof.
  intros Hp. rewrite cell_at_solar, Hp. simpl. eexists. split; [done|].
  unfold solar_cell.
  destruct p as [q| | |]; try (split; reflexivity).
  change (uncapped_change (Num q)) with (Num (-0.48 * q / 17.71 * 100)).
  destruct (cltb (Num (-0.48 * q / 17.71 * 100)) (Num (-100))) eqn:Hc;
    split; done.
Qed.

(** ** Scenario Loader: failures and results *)


Lemma concat_nonempty_cell g : concat (data g) ≠ [] → ∃ i j c, cell_at g i j = Some c.
Proof.
  intros Hne. destruct (concat (data g)) as [|c l] eqn:Hc; [done|].
  assert (Hin : c ∈ concat (data g)) by (rewrite Hc; left).
  apply list_elem_of_In, in_concat in Hin as (row & Hrow & Hin).
  apply list_elem_of_In, list_elem_of_lookup in Hrow as [i Hi].
  apply list_elem_of_In, list_elem_of_lookup in Hin as [j Hj].
  exists i, j, c. unfold cell_at. by rewrite Hi.
Qed.

Lemma process_scenario_data_inv (fs : gmap string (gmap string DataArray))
    (year : Z) (scenario : string) (w b n : Grid) :
  process_scenario_data fs year scenario = Ok (w, b, n) →
  ∃ ds_b ds_n da_b da_n,
    fs !! scenario_path year scenario = Some ds_b ∧
    fs !! scenario_nofire_path year scenario = Some ds_n ∧
    ds_b !! "pm25" = Some da_b ∧ ds_n !! "pm25" = Some da_n ∧
    b = fix_lon (collapse_time da_b) ∧
    n = fix_lon (collapse_time da_n) ∧
    StronglySorted Qle (lon b) ∧ StronglySorted Qle (lon n) ∧
    xr_sub b n = Ok w ∧
    concat (data w) ≠ [].
Proof.
  unfold process_scenario_data. fold (scenario_path year scenario).
  fold (scenario_nofire_path year scenario).
  unfold open_dataset, getitem. intros H.
  cbv beta iota delta [mbind result_bind] in H.
  destruct (String.length scenario <? 2)%nat; [done|].
  destruct (fs !! scenario_path year scenario) as [ds_b|] eqn:H1; [|done].
  destruct (fs !! scenario_nofire_path year scenario) as [ds_n|] eqn:H2;
    [|done].
  destruct (ds_b !! "pm25") as [da_b|] eqn:H3; [|done].
  destruct (ds_n !! "pm25") as [da_n|] eqn:H4; [|done].
  destruct (xr_sub _ _) as [w'|] eqn:Hsub; [|done].
  destruct (print_stats w') as [[]|] eqn:Hstats; [|done].
  injection H as -> <- <-.
  exists ds_b, ds_n, da_b, da_n. repeat split; try done.
  - apply fix_lon_sorted.
  - apply fix_lon_sorted.
  - unfold print_stats in Hstats. by destruct (concat (data w)).
Qed.

(** X7.  What a successful load returns: both files exist and hold the
    variable; the baseline and no-fire fields are the stored variables,
    averaged over time where they have a time dimension and normalized in
    longitude, so their longitudes ascend; the wildfire field is their
    difference and has at least one cell. *)
Theorem loader_result (fs : gmap string (gmap string DataArray))
    (year : Z) (scenario : string) (w b n : Grid) :
  process_scenario_data fs year scenario = Ok (w, b, n) →
  ∃ ds_b ds_n da_b da_n,
    fs !! scenario_path year scenario = Some ds_b ∧
    fs !! scenario_nofire_path year scenario = Some ds_n ∧
    ds_b !! "pm25" = Some da_b ∧ ds_n !! "pm25" = Some da_n ∧
    b = fix_lon (collapse_time da_b) ∧
    n = fix_lon (collapse_time da_n) ∧
    StronglySorted Qle (lon b) ∧ StronglySorted Qle (lon n) ∧
    xr_sub b n = Ok w ∧
    ∃ i j c, cell_at w i j = Some c.
Proof.
  intros H.
  destruct (process_scenario_data_inv fs year scenario w b n H)
    as (ds_b & ds_n & da_b & da_n & H1 & H2 & H3 & H4 & Hb & Hn & Hsb & Hsn
        & Hsub & Hne).
  exists ds_b, ds_n, da_b, da_n. repeat split; try done.
  by apply concat_nonempty_cell.
Qed.

(** ** Mean over time *)

Lemma Qsum_replicate n x : (Qsum (replicate n x) == inject_Z (Z.of_nat n) * x)%Q.
Proof.
  induction n as [|n IH].
  { simpl. ring. }
  cbn [replicate Qsum foldr]. fold (Qsum (replicate n x)). rewrite IH.
  rewrite Nat2Z.inj_succ. unfold Z.succ. rewrite inject_Z_plus. ring.
Qed.

Lemma Forall2_replicate_r_frames (frames : list (list (list cell))) i j x :
  Forall (λ f, f !! i ≫= (.!! j) = Some (Num x)) frames →
  Forall2 (λ f y, f !! i ≫= (.!! j) = Some (Num y)) frames
          (replicate (length frames) x).
Proof. induction 1; constructor; done. Qed.

(** X8.  Where every frame of a non-empty series holds the same number,
    the mean over time is that number. *)
Theorem time_mean_of_constant (la lo : list Q)
    (frames : list (list (list cell))) (a : gmap string string)
    (i j : nat) (x : Q) :
  frames ≠ [] → (i < length la)%nat → (j < length lo)%nat →
  Forall (λ f, f !! i ≫= (.!! j) = Some (Num x)) frames →
  ∃ c, cell_at (collapse_time (Series la lo frames a)) i j = Some c ∧
       ceq c (Num x).
Proof.
  intros Hne Hi Hj Hall. cbn [collapse_time].
  rewrite cell_at_mean_over_time by done.
  rewrite (omap_frames_Num _ _ _ _ (Forall2_replicate_r_frames _ _ _ _ Hall)).
  eexists. split; [reflexivity|].
  rewrite nanmean_Num by (destruct frames; done).
  simpl. rewrite Qsum_replicate, length_replicate. field.
  destruct frames; [done|]. unfold Qeq. simpl. lia.
Qed.

Lemma nansum_filter (l : list cell) :
  nansum (filter (λ c, is_nan c = false) l) = nansum l.
Proof.
  induction l as [|c l IH]; [done|].
  destruct (is_nan c) eqn:Hc.
  - rewrite filter_cons_False by congruence.
    cbn [nansum foldr]. rewrite Hc. exact IH.
  - rewrite filter_cons_True by done.
    cbn [nansum foldr]. rewrite Hc. fold (nansum l).
    fold (nansum (filter (λ c, is_nan c = false) l)). by rewrite IH.
Qed.

Lemma count_numbers_filter (l : list cell) :
  count_numbers (filter (λ c, is_nan c = false) l) = count_numbers l.
Proof.
  unfold count_numbers. f_equal.
  induction l as [|c l IH]; [done|].
  destruct (is_nan c) eqn:Hc.
  - rewrite !filter_cons_False by congruence. exact IH.
  - rewrite (filter_cons_True _ c l) by done.
    rewrite filter_cons_True by done. by rewrite IH.
Qed.

(** X9.  The mean over time skips NaN: at a cell whose frames hold the
    numbers [xs] and otherwise NaN, the mean is the arithmetic mean of
    [xs], and it is NaN when no frame holds a number there. *)
Theorem time_mean_skips_nan (la lo : list Q)
    (frames : list (list (list cell))) (a : gmap string string)
    (i j : nat) (xs : list Q) :
  (i < length la)%nat → (j < length lo)%nat →
  filter (λ c, is_nan c = false) (omap (λ f, f !! i ≫= (.!! j)) frames)
    = Num <$> xs →
  cell_at (collapse_time (Series la lo frames a)) i j
  = Some (match xs with
          | [] => NaN
          | _ :: _ => Num (Qsum xs / inject_Z (Z.of_nat (length xs)))
          end).
Proof.
  intros Hi Hj Hxs. cbn [collapse_time].
  rewrite cell_at_mean_over_time by done. f_equal.
  unfold nanmean. rewrite <- nansum_filter, <- count_numbers_filter, Hxs.
  destruct xs as [|x xs]; [reflexivity|].
  by apply (nanmean_Num (x :: xs)).
Qed.

(** ** Orchestrator: what the mapping holds *)

Ltac literal_field_names :=
  repeat match goal with
  | |- context [baseline_name ?e] =>
      let x := eval vm_compute in (baseline_name e) in
      change (baseline_name e) with x
  | |- context [nofire_name ?e] =>
      let x := eval vm_compute in (nofire_name e) in
      change (nofire_name e) with x
  end; literal_names.

(** X10.  In the mapping of a successful run, for each of the five
    scenarios the wildfire field is the baseline field minus the no-fire
    field of that scenario, and the solar-potential field is the Solar
    Potential Model applied to that wildfire field. *)
Theorem main_derivations (fs : gmap string (gmap string DataArray))
    (m : gmap string Grid) :
  main fs = Ok m →
  ∀ k, k ∈ scenario_keys →
    is_difference m (wildfire_name k) (baseline_name k) (nofire_name k) ∧
    ∃ w, m !! wildfire_name k = Some w ∧
         m !! solar_name k = Some (calculate_solar_potential_change w).
Proof.
  unfold main. intros H. bind_inv H. subst m.
  repeat match goal with
  | E : process_scenario_data _ _ _ = Ok _ |- _ =>
      apply process_scenario_data_inv in E;
      destruct E as (? & ? & ? & ? & _ & _ & _ & _ & -> & -> & _ & _ & ? & _)
  end.
  match goal with |- context [dict_literal ?l] => set (items := l) end.
  assert (Hnd : NoDup items.*1).
  { apply (bool_decide_unpack (NoDup items.*1)). vm_compute. exact I. }
  pose proof (λ k v, lookup_dict_literal items k v Hnd) as Hl.
  intros k Hk. unfold scenario_keys in Hk.
  repeat (apply elem_of_cons in Hk as [->|Hk]); [..|by apply elem_of_nil in Hk].
  all: literal_field_names.
  all: split;
    [ unfold is_difference; do 3 eexists;
      (split; [apply Hl; find_item|]);
      (split; [apply Hl; find_item|]);
      (split; [apply Hl; find_item|]); eassumption
    | eexists; split; apply Hl; find_item ].
Qed.

(** X11.  A run of [main] succeeds only if every one of the ten input
    files is there and holds the variable [pm25]: with any of them missing
    no mapping is returned, not even a partial one. *)
Theorem main_requires_all_files (fs : gmap string (gmap string DataArray))
    (m : gmap string Grid) :
  main fs = Ok m →
  ∀ path, path ∈ required_paths →
    ∃ ds da, fs !! path = Some ds ∧ ds !! "pm25" = Some da.
Proof.
  unfold main. intros H. bind_inv H. clear H.
  repeat match goal with
  | E : process_scenario_data _ _ _ = Ok _ |- _ =>
      apply process_scenario_data_inv in E;
      destruct E as (? & ? & ? & ? & ? & ? & ? & ? & _)
  | E : open_dataset _ _ = Ok _ |- _ =>
      unfold open_dataset in E;
      match type of E with
      | match ?o with Some _ => _ | None => _ end = _ =>
          destruct o eqn:?; [injection E as <- | discriminate E]
      end
  | E : getitem _ _ = Ok _ |- _ =>
      unfold getitem in E;
      match type of E with
      | match ?o with Some _ => _ | None => _ end = _ =>
          destruct o eqn:?; [injection E as <- | discriminate E]
      end
  end.
  intros path Hp. unfold required_paths in Hp.
  repeat (apply elem_of_cons in Hp as [->|Hp]); [..|by apply elem_of_nil in Hp].
  all: eexists _, _; split; eassumption.
Qed.

(** ** Ascending longitudes throughout *)

Lemma StronglySorted_filter_Qle (P : Q → Prop) `{!∀ x, Decision (P x)}
    (l : list Q) :
  StronglySorted Qle l → StronglySorted Qle (filter P l).
Proof.
  induction 1 as [|x l Hl IH Hx]; [constructor|].
  destruct (decide (P x)).
  - rewrite filter_cons_True by done. constructor; [done|].
    apply Forall_forall. intros y Hy. apply list_elem_of_filter in Hy as [_ Hy].
    rewrite Forall_forall in Hx. by apply Hx.
  - by rewrite filter_cons_False.
Qed.

Lemma xr_sub_lon_sorted a b d :
  xr_sub a b = Ok d → StronglySorted Qle (lon a) → StronglySorted Qle (lon d).
Proof.
  unfold xr_sub, align_index. intros H Hs.
  cbv beta iota delta [mbind result_bind] in H.
  destruct (Qs_eqb (lat a) (lat b));
    [|destruct (uniqueb (lat a) && uniqueb (lat b)); [|done]];
    (destruct (Qs_eqb (lon a) (lon b));
      [|destruct (uniqueb (lon a) && uniqueb (lon b)); [|done]]);
    injection H as <-; cbn [lon]; try done;
    by apply StronglySorted_filter_Qle.
Qed.

Lemma lon_solar g : lon (calculate_solar_potential_change g) = lon g.
Proof. reflexivity. Qed.

Lemma dict_literal_lookup_inv {V} (items : list (string * V)) k v :
  NoDup items.*1 → dict_literal items !! k = Some v → (k, v) ∈ items.
Proof.
  intros Hnd Hk.
  destruct (decide (k ∈ items.*1)) as [Hin|Hin].
  - apply list_elem_of_fmap in Hin as ([k' v'] & -> & Hin). simpl in Hk.
    rewrite (lookup_dict_literal items k' v' Hnd Hin) in Hk.
    by injection Hk as <-.
  - exfalso. apply Hin.
    apply (elem_of_list_to_set (C := gset string)).
    rewrite <- dom_dict_literal. apply elem_of_dom. by eexists.
Qed.

Ltac sorted_lon :=
  first [ assumption
        | apply fix_lon_sorted
        | rewrite lon_solar; sorted_lon
        | eapply xr_sub_lon_sorted; [eassumption | sorted_lon] ].

(** X12.  Every field of the mapping of a successful run has its
    longitudes in ascending order, whatever the order in the files: the
    label slices of the regional aggregation rely on it. *)
Theorem main_fields_ascending (fs : gmap string (gmap string DataArray))
    (m : gmap string Grid) (name : string) (g : Grid) :
  main fs = Ok m → m !! name = Some g → StronglySorted Qle (lon g).
Proof.
  unfold main. intros H. bind_inv H. subst m.
  repeat match goal with
  | E : process_scenario_data _ _ _ = Ok _ |- _ =>
      apply process_scenario_data_inv in E;
      destruct E as (? & ? & ? & ? & _ & _ & _ & _ & _ & _ & ? & ? & ? & _)
  end.
  match goal with |- context [dict_literal ?l] => set (items := l) end.
  assert (Hnd : NoDup items.*1).
  { apply (bool_decide_unpack (NoDup items.*1)). vm_compute. exact I. }
  assert (Hall : Forall (λ kv, StronglySorted Qle (lon kv.2)) items).
  { unfold items.
    repeat (apply Forall_cons; split; [cbn [snd]; sorted_lon|]).
    by apply Forall_nil. }
  intros Hg. apply dict_literal_lookup_inv in Hg; [|done].
  rewrite Forall_forall in Hall. apply (Hall _ Hg).
Qed.

(** ** Regional Aggregator: keys, empty windows, bounds *)

(** X13.  The table of regional means has exactly the six regions as its
    keys, and under each region exactly the names of the given fields. *)
Theorem regional_means_keys (cos_deg : Q → Q)
    (data_dict : list (string * Grid)) :
  dom (calculate_regional_means cos_deg data_dict)
    = list_to_set regions.*1 ∧
  size (calculate_regional_means cos_deg data_dict) = 6%nat ∧
  ∀ region_name col,
    calculate_regional_means cos_deg data_dict !! region_name = Some col →
    dom col = list_to_set data_dict.*1.
Proof.
  assert (Hdom : dom (calculate_regional_means cos_deg data_dict)
                 = list_to_set regions.*1).
  { unfold calculate_regional_means.
    by rewrite dom_dict_literal, <- list_fmap_compose. }
  split; [exact Hdom|]. split.
  - rewrite <- size_dom, Hdom. rewrite size_list_to_set; [reflexivity|].
    apply (bool_decide_unpack (NoDup regions.*1)). vm_compute. exact I.
  - intros region_name col Hcol. unfold calculate_regional_means in Hcol.
    apply dict_literal_lookup_inv in Hcol.
    + apply list_elem_of_fmap in Hcol as (region & [= _ ->] & _).
      by rewrite dom_dict_literal, <- list_fmap_compose.
    + rewrite <- list_fmap_compose.
      apply (bool_decide_unpack (NoDup regions.*1)). vm_compute. exact I.
Qed.

Lemma bind_fmap_nil {A B C D} (l : list A) (k : A → list B)
    (f : A → B → C) (h : A → B → D) :
  l ≫= (λ p, f p <$> k p) = [] → l ≫= (λ p, h p <$> k p) = [].
Proof.
  induction l as [|x l IH]; [done|].
  cbn [mbind list_bind]. intros H. apply app_eq_nil in H as [H1 H2].
  apply fmap_nil_inv in H1. rewrite H1. cbn [fmap list_fmap app].
  by apply IH.
Qed.

(** X14.  A region whose window holds no cell of the grid gets NaN as its
    mean: no error is raised and no zero is made up. *)
Theorem regional_mean_of_empty_window (cos_deg : Q → Q)
    (data_dict : list (string * Grid)) (name : string) (g : Grid)
    (region_name : string) (r : Region) :
  NoDup data_dict.*1 → (name, g) ∈ data_dict →
  (region_name, r) ∈ regions →
  rectangular g →
  StronglySorted Qle (lat g) → StronglySorted Qle (lon g) →
  window_cells g r = [] →
  ∃ col,
    calculate_regional_means cos_deg data_dict !! region_name = Some col ∧
    col !! name = Some NaN.
Proof.
  intros Hnd Hg Hr Hrect Hlat Hlon Hwin.
  destruct (regional_means_lookup cos_deg data_dict name g region_name r)
    as (col & Hcol & Hm); [done..|].
  exists col. split; [done|]. rewrite Hm. f_equal.
  rewrite weighted_mean_rows by done. unfold window_cells in Hwin.
  rewrite (bind_fmap_nil _ _ _
             (λ p c, cmul c.2 (cmul (Num 1) (Num (cos_deg p.1)))) Hwin).
  rewrite (bind_fmap_nil _ _ _
             (λ p c, cmul (Num 1) (Num (cos_deg p.1))) Hwin).
  reflexivity.
Qed.

Lemma Qsum_weighted_bounds {B} (v w : B → Q) (lo hi : Q) (l : list B) :
  Forall (λ p, (lo <= v p)%Q ∧ (v p <= hi)%Q ∧ (0 < w p)%Q) l →
  (lo * Qsum (w <$> l) <= Qsum ((λ p, v p * w p)%Q <$> l))%Q ∧
  (Qsum ((λ p, v p * w p)%Q <$> l) <= hi * Qsum (w <$> l))%Q.
Proof.
  induction 1 as [|p l (Hlo & Hhi & Hw) _ [IH1 IH2]]; [simpl; lra|].
  cbn [fmap list_fmap Qsum foldr].
  fold (fmap (λ p, v p * w p)%Q l). fold (fmap w l).
  fold (Qsum ((λ p, v p * w p)%Q <$> l)). fold (Qsum (w <$> l)).
  split; nra.
Qed.

(** X15.  With a cosine that is positive between -90 and 90 degrees, the
    regional mean of a numeric field lies between any two bounds that hold
    for the values of the window, provided the window is not empty. *)
Theorem regional_mean_within_bounds (cos_deg : Q → Q)
    (g : Grid) (region_name : string) (r : Region) (lo hi : Q) :
  (∀ x, (-90 < x)%Q → (x < 90)%Q → (0 < cos_deg x)%Q) →
  (region_name, r) ∈ regions →
  rectangular g → numeric g →
  StronglySorted Qle (lat g) → StronglySorted Qle (lon g) →
  window_cells g r ≠ [] →
  Forall (λ p, (lo <= cell_value p.2)%Q ∧ (cell_value p.2 <= hi)%Q)
         (window_cells g r) →
  ∃ q, weighted_mean cos_deg g r = Num q ∧ (lo <= q)%Q ∧ (q <= hi)%Q.
Proof.
  intros Hcos Hr Hrect Hnum Hlat Hlon Hne Hb.
  pose proof (weighted_mean_spec cos_deg g r Hrect Hnum Hlat Hlon) as Heq.
  unfold spec_weighted_mean in Heq.
  set (ws := window_cells g r) in *.
  assert (Hall : Forall (λ p : Q * cell,
            (lo <= cell_value p.2)%Q ∧ (cell_value p.2 <= hi)%Q ∧
            (0 < cos_deg p.1)%Q) ws).
  { apply Forall_forall. intros [la x] Hx.
    rewrite Forall_forall in Hb. destruct (Hb _ Hx) as [H1 H2].
    repeat split; [done..|]. simpl.
    apply window_cells_in in Hx as (Hin & _).
    apply in_bounds_spec in Hin as [Hlo Hhi].
    destruct (regions_latitudes _ _ Hr). apply Hcos; lra. }
  destruct (Qsum_weighted_bounds (λ p : Q * cell, cell_value p.2)
              (λ p, cos_deg p.1) lo hi ws Hall) as [H1 H2].
  assert (Hpos : (0 < Qsum ((λ p : Q * cell, cos_deg p.1) <$> ws))%Q).
  { apply Qsum_pos; [by destruct ws|].
    apply Forall_fmap. eapply Forall_impl; [exact Hall|]. by intros p (_ & _ & ?). }
  cbn [cdiv] in Heq.
  destruct (Qeq_bool (Qsum ((λ p : Q * cell, cos_deg p.1) <$> ws)) 0) eqn:Hz.
  { apply Qeq_bool_iff in Hz. lra. }
  destruct (weighted_mean cos_deg g r) as [q| | |]; try done.
  exists q. split; [done|]. simpl in Heq. rewrite Heq. split.
  - apply Qle_shift_div_l; [done|]. lra.
  - apply Qle_shift_div_r; [done|]. lra.
Qed.

(** ** The regional mean and the Solar Potential Model *)

Section mean_of_solar.
Variable cos_deg : Q → Q.
Implicit Types (g : Grid) (r : Region).

Lemma zip_fmap_r_pairs {A B C} (f : B → C) (l : list A) (k : list B) :
  zip l (f <$> k) = (λ p, (p.1, f p.2)) <$> zip l k.
Proof.
  revert k. induction l as [|x l IH]; intros [|y k]; [done..|].
  cbn [fmap list_fmap zip_with]. f_equal. apply IH.
Qed.

Lemma filter_fmap_snd {A B C} (P : A → bool) (f : B → C) (l : list (A * B)) :
  List.filter (λ p, P p.1) ((λ p, (p.1, f p.2)) <$> l)
  = (λ p, (p.1, f p.2)) <$> List.filter (λ p, P p.1) l.
Proof.
  induction l as [|[a b] l IH]; [done|].
  cbn [fmap list_fmap List.filter fst snd].
  destruct (P a); cbn [fmap list_fmap]; by rewrite <- IH.
Qed.

Lemma window_cells_solar g r :
  window_cells (calculate_solar_potential_change g) r
  = (λ p, (p.1, solar_cell p.2)) <$> window_cells g r.
Proof.
  unfold window_cells, kept_rows, kept_cells.
  cbn [lat lon data calculate_solar_potential_change].
  change (map (map solar_cell) (data g))
    with (fmap (M := list) (fmap (M := list) solar_cell) (data g)).
  rewrite zip_fmap_r_pairs, filter_fmap_snd.
  induction (List.filter _ (zip (lat g) (data g))) as [|[la row] rows IH];
    [done|].
  cbn [fmap list_fmap mbind list_bind fst snd].
  rewrite fmap_app. f_equal; [|exact IH].
  rewrite zip_fmap_r_pairs, filter_fmap_snd.
  rewrite <- !list_fmap_compose. done.
Qed.

Lemma uncapped_change_proper x y :
  ceq x y → ceq (uncapped_change x) (uncapped_change y).
Proof.
  destruct x as [a| | |], y as [b| | |]; simpl; try done.
  intros H. by rewrite H.
Qed.

Lemma ceq_sym x y : ceq x y → ceq y x.
Proof. destruct x, y; simpl; done. Qed.

Lemma uncapped_change_cdiv (s1 s1' s2 : Q) :
  (s1' == (-4800 # 1771) * s1)%Q →
  ceq (cdiv (Num s1') (Num s2)) (uncapped_change (cdiv (Num s1) (Num s2))).
Proof.
  intros Hs. unfold cdiv. destruct (Qeq_bool s2 0) eqn:Hz.
  - destruct (s1 ?= 0)%Q eqn:Hc.
    + apply Qeq_alt in Hc.
      assert (H0 : (s1' ?= 0)%Q = Eq) by (apply Qeq_alt; lra).
      by rewrite H0.
    + apply Qlt_alt in Hc.
      assert (H0 : (s1' ?= 0)%Q = Gt) by (apply Qgt_alt; lra).
      by rewrite H0.
    + apply Qgt_alt in Hc.
      assert (H0 : (s1' ?= 0)%Q = Lt) by (rewrite <- Qlt_alt; lra).
      by rewrite H0.
  - apply Qeq_bool_neq in Hz. rewrite uncapped_change_Num. simpl.
    rewrite Hs. by field.
Qed.

Lemma Qsum_scaled {B} (v v' w : B → Q) (k : Q) (l : list B) :
  Forall (λ p, (v' p == k * v p)%Q) l →
  (Qsum ((λ p, v' p * w p)%Q <$> l) == k * Qsum ((λ p, v p * w p)%Q <$> l))%Q.
Proof.
  induction 1 as [|p l Hp _ IH]; [simpl; ring|].
  cbn [fmap list_fmap Qsum foldr].
  fold (fmap (λ p, v' p * w p)%Q l). fold (fmap (λ p, v p * w p)%Q l).
  fold (Qsum ((λ p, v' p * w p)%Q <$> l)).
  fold (Qsum ((λ p, v p * w p)%Q <$> l)).
  rewrite IH, Hp. ring.
Qed.

Lemma below_cap_numeric g : below_cap g → numeric g.
Proof.
  intros H. eapply Forall_impl; [exact H|]. simpl. intros row Hrow.
  eapply Forall_impl; [exact Hrow|]. simpl. intros c (q & -> & _). by exists q.
Qed.

Lemma numeric_solar g : numeric g → numeric (calculate_solar_potential_change g).
Proof.
  intros H. unfold numeric; cbn [data calculate_solar_potential_change].
  change (map (map solar_cell) (data g))
    with (fmap (M := list) (fmap (M := list) solar_cell) (data g)).
  apply Forall_fmap. eapply Forall_impl; [exact H|]. simpl. intros row Hrow.
  apply Forall_fmap. eapply Forall_impl; [exact Hrow|]. simpl.
  intros c [q ->]. rewrite solar_cell_Num.
  destruct (cltb _ _); by eexists.
Qed.

Lemma rectangular_solar g :
  rectangular g → rectangular (calculate_solar_potential_change g).
Proof.
  intros [H1 H2]. split; cbn [data lat lon calculate_solar_potential_change].
  - by rewrite length_map.
  - change (map (map solar_cell) (data g))
      with (fmap (M := list) (fmap (M := list) solar_cell) (data g)).
    apply Forall_fmap. eapply Forall_impl; [exact H2|]. simpl.
    intros row Hrow. by rewrite length_fmap.
Qed.

End mean_of_solar.

(** X16.  Averaging and the Solar Potential Model commute where the cap is
    not reached: for a field whose cells are numbers of at most 1771/48,
    the regional mean of its solar-potential field is -0.48 / 17.71 * 100
    times the regional mean of the field (and is as undefined as that mean
    over an empty window), for every region. *)
Theorem regional_mean_of_solar_field (cos_deg : Q → Q)
    (g : Grid) (r : Region) :
  rectangular g → below_cap g →
  StronglySorted Qle (lat g) → StronglySorted Qle (lon g) →
  ceq (weighted_mean cos_deg (calculate_solar_potential_change g) r)
      (uncapped_change (weighted_mean cos_deg g r)).
Proof.
  intros Hrect Hcap Hlat Hlon.
  pose proof (below_cap_numeric g Hcap) as Hnum.
  eapply ceq_trans.
  { apply weighted_mean_spec; [by apply rectangular_solar
                              | by apply numeric_solar | done..]. }
  eapply ceq_trans;
    [| apply uncapped_change_proper, ceq_sym, weighted_mean_spec; done].
  unfold spec_weighted_mean. rewrite window_cells_solar.
  rewrite <- !list_fmap_compose.
  eapply ceq_trans; [|apply (uncapped_change_cdiv _ _ _ (reflexivity _))].
  apply cdiv_Num_proper; [|reflexivity].
  apply (Qsum_scaled (λ p : Q * cell, cell_value p.2)
           (λ p : Q * cell, cell_value (solar_cell p.2))
           (λ p, cos_deg p.1) (-4800 # 1771)).
  apply Forall_forall. intros [la c] Hc.
  apply window_cells_in in Hc as (_ & row & Hrow & Hc).
  unfold below_cap in Hcap. rewrite Forall_forall in Hcap.
  specialize (Hcap _ Hrow). rewrite Forall_forall in Hcap.
  destruct (Hcap _ Hc) as (q & -> & Hq). cbn [snd].
  rewrite solar_cell_linear by exact Hq. simpl. field.
Qed.

(** ** Entry point: the figures that a run writes *)

Section figures.
Import run_visualization.
Implicit Types (env : Env) (files : list string).

Lemma saved_figures_app l1 l2 :
  saved_figures (l1 ++ l2) = saved_figures l1 ++ saved_figures l2.
Proof. apply omap_app. Qed.

Lemma tracebacks_app l1 l2 : tracebacks (l1 ++ l2) = tracebacks l1 ++ tracebacks l2.
Proof. apply omap_app. Qed.

(** Sequencing: the figures of the first program, then those of the
    second. *)
Lemma writes_figures_bind {A B} files1 files2 (m : prog A) (f : A → prog B) :
  writes_figures files1 m →
  (∀ a, writes_figures files2 (f a)) →
  writes_figures (files1 ++ files2) (m ≫= f).
Proof.
  unfold writes_figures. destruct m as [[a|e] log]; cbn [fst snd].
  - intros [Ht Hs] Hf. specialize (Hf a).
    cbv beta iota delta [mbind prog_bind].
    destruct (f a) as [[b|e] log']; cbn [fst snd] in *;
      rewrite tracebacks_app, saved_figures_app, Ht, Hs.
    + destruct Hf as [-> ->]. done.
    + destruct Hf as [-> [k ->]]. split; [done|].
      exists (length files1 + k)%nat. by rewrite take_app_add.
  - intros [Ht [k Hs]] _. cbv beta iota delta [mbind prog_bind]. cbn [fst snd].
    split; [done|]. rewrite Hs.
    destruct (decide (k ≤ length files1)%nat) as [Hk|Hk].
    + exists k. by rewrite take_app_le.
    + exists (length files1). rewrite take_app_length. apply take_ge. lia.
Qed.

Lemma writes_figures_silent_bind {A B} files (m : prog A) (f : A → prog B) :
  writes_figures [] m →
  (∀ a, writes_figures files (f a)) →
  writes_figures files (m ≫= f).
Proof. apply (writes_figures_bind [] files). Qed.

Lemma writes_figures_print {B} files line (f : () → prog B) :
  (∀ a, writes_figures files (f a)) →
  writes_figures files (emit (Print line) ≫= f).
Proof. apply writes_figures_silent_bind. by split. Qed.

Lemma writes_figures_getfield {B} files m key (f : Grid → prog B) :
  (∀ a, writes_figures files (f a)) →
  writes_figures files (getfield m key ≫= f).
Proof.
  apply writes_figures_silent_bind. unfold getfield.
  destruct (m !! key); split; try done. by exists 0%nat.
Qed.

Lemma writes_figures_lift {A B} files (r : result A) (f : A → prog B) :
  (∀ a, writes_figures files (f a)) →
  writes_figures files (lift r ≫= f).
Proof.
  apply writes_figures_silent_bind. unfold lift.
  destruct r; split; try done. by exists 0%nat.
Qed.

Lemma writes_figures_draw env output_dir c :
  writes_figures [path_join output_dir (plot_filename c)]
                 (draw env output_dir c).
Proof.
  unfold draw, raise_if.
  destruct (plot env c); split; try done. by exists 0%nat.
Qed.

Lemma writes_figures_draw_bind {B} env output_dir c files
    (f : () → prog B) :
  (∀ a, writes_figures files (f a)) →
  writes_figures (path_join output_dir (plot_filename c) :: files)
                 (draw env output_dir c ≫= f).
Proof.
  apply (writes_figures_bind [path_join output_dir (plot_filename c)] files).
  apply writes_figures_draw.
Qed.

Lemma writes_figures_visualize env output_dir :
  writes_figures (path_join output_dir <$> figure_files)
                 (visualize env output_dir).
Proof.
  unfold visualize, figure_files. cbn [fmap list_fmap].
  repeat first
    [ apply writes_figures_print; intros _
    | apply writes_figures_lift; intros ?
    | apply writes_figures_getfield; intros ?
    | apply writes_figures_draw_bind; intros _ ].
  by split.
Qed.
End figures.

Lemma main_dom (fs : gmap string (gmap string DataArray))
    (m : gmap string Grid) :
  main fs = Ok m → dom m = list_to_set variable_names.
Proof.
  unfold main. intros H. bind_inv H. subst m. by rewrite dom_dict_literal.
Qed.

Lemma main_has_field (fs : gmap string (gmap string DataArray))
    (m : gmap string Grid) key :
  main fs = Ok m → key ∈ variable_names → is_Some (m !! key).
Proof.
  intros Hm Hk. apply elem_of_dom. rewrite (main_dom fs m Hm).
  by apply elem_of_list_to_set.
Qed.

Section runs.
Local Abbreviation pipeline_main := main.
Import run_visualization.
Implicit Types (env : Env).

Lemma main_setup_failure env out_dir e :
  makedirs env out_dir = Some e →
  main env out_dir
  = (Raise e, [Print "Starting wildfire PM2.5 visualization process..."]).
Proof.
  intros Hmk. unfold main.
  cbv beta iota delta [mbind mret prog_bind prog_ret emit
    set_output_directory setup_visualization_env raise_if try_except].
  by rewrite Hmk.
Qed.







Lemma main_after_setup env out_dir :
  makedirs env out_dir = None →
  ∃ intro,
    tracebacks intro = [] ∧ saved_figures intro = [] ∧
    match visualize env out_dir with
    | (Ok _, log) => main env out_dir = (Ok 0%Z, intro ++ log)
    | (Raise e, log) =>
        main env out_dir
        = (Ok 1%Z,
           intro ++ log ++
           [Print ("Error during visualization process: " +:+ exn_str e);
            PrintExc e])
    end.
Proof.
  intros Hmk. eexists. split; [|split]; [| |apply (main_try_block env out_dir Hmk)];
    reflexivity.
Qed.
End runs.

(** X17.  Whatever happens during a run, the figures that [main] has
    saved are the first few of the seventeen figures, in the order of the
    calls and under the output directory: nothing is saved after a
    failure.  When [main] returns 0 all seventeen are saved. *)
Theorem figures_saved_in_order (env : run_visualization.Env)
    (out_dir : string) :
  (∃ k, saved_figures (run_visualization.main env out_dir).2
        = take k (path_join out_dir <$> figure_files)) ∧
  ((run_visualization.main env out_dir).1 = Ok 0%Z →
   saved_figures (run_visualization.main env out_dir).2
   = path_join out_dir <$> figure_files).
Proof.
  destruct (run_visualization.makedirs env out_dir) as [e|] eqn:Hmk.
  { rewrite (main_setup_failure env out_dir e Hmk). split; [|done].
    by exists 0%nat. }
  destruct (main_after_setup env out_dir Hmk) as (intro & _ & Hi & Hmain).
  destruct (writes_figures_visualize env out_dir) as [_ Hv].
  destruct (run_visualization.visualize env out_dir) as [[[]|e] log];
    cbn [fst snd] in *; rewrite Hmain; cbn [fst snd].
  - rewrite saved_figures_app, Hi, Hv. split; [|done].
    exists (length (path_join out_dir <$> figure_files)). by rewrite firstn_all.
  - rewrite !saved_figures_app, Hi. destruct Hv as [k ->]. split.
    + exists k. cbn. by rewrite app_nil_r.
    + intros [=].
Qed.

(** X18.  A run of the script ends either with status 0 and no traceback,
    or with status 1 and exactly one traceback: the one of the handler of
    [main], or the one of the interpreter for an exception that [main]
    does not catch. *)
Theorem script_status_and_traceback (env : run_visualization.Env)
    (argv : list string) :
  ((run_visualization.script env argv).1 = 0%Z ∧
   tracebacks (run_visualization.script env argv).2 = []) ∨
  ((run_visualization.script env argv).1 = 1%Z ∧
   ∃ e, tracebacks (run_visualization.script env argv).2 = [e]).
Proof.
  unfold run_visualization.script.
  destruct (run_visualization.listdir_error env) as [e|].
  { right. split; [done|]. by exists e. }
  set (d := if (1 <? length argv)%nat then _ else _). clearbody d.
  destruct (run_visualization.makedirs env d) as [e|] eqn:Hmk.
  { rewrite (main_setup_failure env d e Hmk). right. split; [done|].
    by exists e. }
  destruct (main_after_setup env d Hmk) as (intro & Hi & _ & Hmain).
  destruct (writes_figures_visualize env d) as [Hv _].
  destruct (run_visualization.visualize env d) as [[[]|e] log];
    cbn [fst snd] in *; rewrite Hmain; cbn [fst snd].
  - left. split; [done|]. by rewrite tracebacks_app, Hi, Hv.
  - right. split; [done|]. exists e.
    by rewrite !tracebacks_app, Hi, Hv.
Qed.


(** ** Subtraction of fields *)

Lemma Qs_eqb_sym xs ys : Qs_eqb xs ys = Qs_eqb ys xs.
Proof.
  revert ys. induction xs as [|x xs IH]; intros [|y ys]; simpl; try done.
  by rewrite IH, Qeq_bool_comm.
Qed.

Lemma csub_antisym x y : ceq (csub y x) (cneg (csub x y)).
Proof. destruct x, y; simpl; try done. ring. Qed.

(** X20.  Subtraction of two fields on the same grid is anti-symmetric:
    both differences exist, have the same cells, and each cell of [b - a]
    is the negation of the cell of [a - b]. *)
Theorem subtraction_antisymmetric (a b : Grid) :
  same_coords a b → rectangular a → rectangular b →
  ∃ d1 d2, xr_sub a b = Ok d1 ∧ xr_sub b a = Ok d2 ∧
    ∀ i j, match cell_at d1 i j, cell_at d2 i j with
           | Some c1, Some c2 => ceq c2 (cneg c1)
           | None, None => True
           | _, _ => False
           end.
Proof.
  intros Hab Ha Hb.
  assert (Hba : same_coords b a).
  { destruct Hab as [H1 H2]. split; by rewrite Qs_eqb_sym. }
  eexists _, _. split; [by apply xr_sub_same_coords|].
  split; [by apply xr_sub_same_coords|].
  intros i j.
  destruct (xr_sub_elementwise a b _ Hab Ha Hb (xr_sub_same_coords a b Hab Ha Hb))
    as (_ & _ & H1).
  destruct (xr_sub_elementwise b a _ Hba Hb Ha (xr_sub_same_coords b a Hba Hb Ha))
    as (_ & _ & H2).
  rewrite H1, H2.
  destruct (cell_at a i j) as [x|], (cell_at b i j) as [y|]; simpl; try done.
  apply csub_antisym.
Qed.

Lemma align_disjoint xs ys labels ra rb :
  Forall (λ x, index_of x ys = None) xs →
  align_index xs ys = Ok (labels, ra, rb) → ra = [] ∧ rb = [].
Proof.
  intros Hd. unfold align_index.
  destruct (Qs_eqb xs ys) eqn:Heq.
  - destruct xs as [|x xs], ys as [|y ys]; try done.
    + intros [= <- <- <-]. done.
    + exfalso. apply Forall_cons in Hd as [Hx _]. simpl in *.
      apply andb_true_iff in Heq as [Heq _]. by rewrite Heq in Hx.
  - destruct (uniqueb xs && uniqueb ys); [|done].
    assert (Hnil : filter (λ x, is_Some (index_of x ys)) xs = []).
    { clear Heq. induction Hd as [|x xs Hx _ IH]; [done|].
      rewrite filter_cons_False; [done|]. rewrite Hx. by intros [? ?]. }
    rewrite Hnil. intros [= <- <- <-]. done.
Qed.

(** X21.  If the standard run and the no-fire run of a scenario share no
    latitude, the loader returns no fields: it raises [ValueError], from
    the alignment or from the statistics of the empty difference. *)
Theorem loader_disjoint_latitudes (fs : gmap string (gmap string DataArray))
    (year : Z) (scenario : string) (ds_b ds_n : gmap string DataArray)
    (da_b da_n : DataArray) :
  (2 ≤ String.length scenario)%nat →
  fs !! scenario_path year scenario = Some ds_b →
  fs !! scenario_nofire_path year scenario = Some ds_n →
  ds_b !! "pm25" = Some da_b → ds_n !! "pm25" = Some da_n →
  Forall (λ x, index_of x (lat (collapse_time da_n)) = None)
         (lat (collapse_time da_b)) →
  ∃ msg, process_scenario_data fs year scenario = Raise (ValueError msg).
Proof.
  intros Hlen Hb Hn Hpb Hpn Hd.
  unfold process_scenario_data. fold (scenario_path year scenario).
  fold (scenario_nofire_path year scenario).
  unfold open_dataset, getitem.
  apply Nat.ltb_ge in Hlen. rewrite Hlen.
  cbv beta iota delta [mbind result_bind].
  rewrite Hb, Hn, Hpb, Hpn.
  unfold xr_sub. cbv beta iota delta [mbind result_bind].
  change (lat (fix_lon (collapse_time da_b))) with (lat (collapse_time da_b)).
  change (lat (fix_lon (collapse_time da_n))) with (lat (collapse_time da_n)).
  destruct (align_index (lat (collapse_time da_b)) (lat (collapse_time da_n)))
    as [[[labels ra] rb]|e] eqn:Hlat.
  - destruct (align_disjoint _ _ _ _ _ Hd Hlat) as [-> ->].
    destruct (align_index (lon (fix_lon (collapse_time da_b)))
                (lon (fix_lon (collapse_time da_n))))
      as [[[lons ca] cb]|e] eqn:Hlon.
    + eexists. reflexivity.
    + unfold align_index in Hlon.
      destruct (Qs_eqb _ _); [done|].
      destruct (_ && _); [done|]. injection Hlon as <-. by eexists.
  - unfold align_index in Hlat.
    destruct (Qs_eqb _ _); [done|].
    destruct (_ && _); [done|]. injection Hlat as <-. by eexists.
Qed.

(** ** Comparison figure: the grid of panels *)

(** X22.  The grid of panels has one to three rows, a cell for every
    panel, and no row without a panel. *)
Theorem panel_grid_fits (n_panels : nat) :
  (1 ≤ (panel_grid n_panels).1 ≤ 3)%nat ∧
  (n_panels ≤ (panel_grid n_panels).1 * (panel_grid n_panels).2)%nat ∧
  ((1 ≤ n_panels)%nat →
   (((panel_grid n_panels).1 - 1) * (panel_grid n_panels).2 < n_panels)%nat).
Proof.
  unfold panel_grid, ceil_div.
  destruct (n_panels <=? 3)%nat eqn:H3; cbn [fst snd].
  { apply Nat.leb_le in H3. lia. }
  apply Nat.leb_gt in H3.
  destruct (n_panels <=? 6)%nat eqn:H6; cbn [fst snd].
  - apply Nat.leb_le in H6.
    pose proof (Nat.div_mod_eq (n_panels + 2 - 1) 2).
    pose proof (Nat.mod_upper_bound (n_panels + 2 - 1) 2). lia.
  - apply Nat.leb_gt in H6.
    pose proof (Nat.div_mod_eq (n_panels + 3 - 1) 3).
    pose proof (Nat.mod_upper_bound (n_panels + 3 - 1) 3). lia.
Qed.

(** ** Comparison figure: the limits of the colour scale *)

Lemma cell_at_elem_of g c :
  c ∈ concat (data g) ↔ ∃ i j, cell_at g i j = Some c.
Proof.
  rewrite list_elem_of_In, in_concat. split.
  - intros (row & Hrow & Hin).
    apply list_elem_of_In, list_elem_of_lookup in Hrow as [i Hi].
    apply list_elem_of_In, list_elem_of_lookup in Hin as [j Hj].
    exists i, j. unfold cell_at. by rewrite Hi.
  - intros (i & j & H). unfold cell_at in H.
    destruct (data g !! i) as [row|] eqn:Hi; [|done]. simpl in H.
    exists row. split; apply list_elem_of_In; by eapply list_elem_of_lookup_2.
Qed.

Section extremum.
Variable better : cell → cell → bool.
Variable le : Q → Q → Prop.
Hypothesis le_refl : ∀ a, le a a.
Hypothesis le_trans : ∀ a b c, le a b → le b c → le a c.
Hypothesis better_true : ∀ a b, better (Num a) (Num b) = true → le a b.
Hypothesis better_false : ∀ a b, better (Num a) (Num b) = false → le b a.

Lemma fold_pick (l : list cell) (x : Q) :
  Forall (λ c, ∃ q, c = Num q) l →
  ∃ m, foldl (λ held y, if better y held then y else held) (Num x) l = Num m ∧
       Num m ∈ Num x :: l ∧ le m x ∧ ∀ q, Num q ∈ l → le m q.
Proof.
  intros Hl. revert x. induction Hl as [|c l [q ->] _ IH]; intros x.
  - exists x. simpl. split; [done|]. split; [left|].
    split; [apply le_refl|]. intros q Hq. by inversion Hq.
  - cbn [foldl]. destruct (better (Num q) (Num x)) eqn:Hb.
    + destruct (IH q) as (m & Hm & Hin & Hle & Hall). exists m.
      split; [done|]. split; [by right|].
      split. { eapply le_trans; [exact Hle|]. by apply better_true. }
      intros q' Hq'. apply elem_of_cons in Hq' as [Heq|Hq'].
      * injection Heq as ->. done.
      * by apply Hall.
    + destruct (IH x) as (m & Hm & Hin & Hle & Hall). exists m.
      split; [done|]. split.
      { apply elem_of_cons in Hin as [->|Hin]; [left|by do 2 right]. }
      split; [done|]. intros q' Hq'. apply elem_of_cons in Hq' as [Heq|Hq'].
      * injection Heq as ->. eapply le_trans; [exact Hle|].
        by apply better_false.
      * by apply Hall.
Qed.

Lemma field_extremum_numeric g :
  numeric g → concat (data g) ≠ [] →
  ∃ m, field_extremum better g = Ok (Num m) ∧ Num m ∈ concat (data g) ∧
       ∀ q, Num q ∈ concat (data g) → le m q.
Proof.
  intros Hnum Hne.
  assert (Hall : Forall (λ c, ∃ q, c = Num q) (concat (data g))).
  { apply Forall_concat. exact Hnum. }
  assert (Hf : filter (λ c, is_nan c = false) (concat (data g))
               = concat (data g)).
  { clear Hne. induction Hall as [|c l [q ->] _ IH]; [done|].
    rewrite filter_cons_True by done. by rewrite IH. }
  unfold field_extremum. rewrite Hf.
  destruct (concat (data g)) as [|c l] eqn:Hc; [done|].
  apply Forall_cons in Hall as [[x ->] Hl].
  destruct (fold_pick l x Hl) as (m & Hm & Hin & Hle & Hrest).
  exists m. rewrite Hm. split; [done|]. split; [done|].
  intros q Hq. apply elem_of_cons in Hq as [Heq|Hq].
  - injection Heq as ->. done.
  - by apply Hrest.
Qed.

Lemma field_extrema_numeric (data_dict : list (string * Grid)) :
  Forall (λ item, numeric item.2 ∧ concat (data item.2) ≠ []) data_dict →
  ∃ ms, mapM (λ item, field_extremum better item.2) data_dict = Ok ms ∧
        Forall2 (λ item c, ∃ m, c = Num m ∧ Num m ∈ concat (data item.2) ∧
                   ∀ q, Num q ∈ concat (data item.2) → le m q)
                data_dict ms.
Proof.
  induction 1 as [|item l [Hnum Hne] _ (ms & Hms & Hrel)].
  - exists []. split; [done|constructor].
  - destruct (field_extremum_numeric item.2 Hnum Hne) as (m & Hm & Hin & Hle).
    exists (Num m :: ms). split.
    + cbn [mapM]. rewrite Hm. cbn. rewrite Hms. done.
    + constructor; [|done]. by exists m.
Qed.

Lemma extremum_over_fields (data_dict : list (string * Grid)) :
  data_dict ≠ [] →
  Forall (λ item, numeric item.2 ∧ concat (data item.2) ≠ []) data_dict →
  ∃ x l M,
    mapM (λ item, field_extremum better item.2) data_dict = Ok (x :: l) ∧
    foldl (λ held y, if better y held then y else held) x l = Num M ∧
    (∀ item q, item ∈ data_dict → Num q ∈ concat (data item.2) → le M q) ∧
    (∃ item, item ∈ data_dict ∧ Num M ∈ concat (data item.2)).
Proof.
  intros Hne Hall.
  destruct (field_extrema_numeric data_dict Hall) as (ms & Hms & Hrel).
  destruct Hrel as [|item c rest ms (m0 & -> & Hin0 & Hle0) Hrel]; [done|].
  assert (Hnums : Forall (λ c, ∃ q, c = Num q) ms).
  { clear -Hrel. induction Hrel as [|? ? ? ? (m & -> & _) _ IH];
      constructor; [by exists m|done]. }
  destruct (fold_pick ms m0 Hnums) as (M & HM & HinM & HleM & Hrest).
  exists (Num m0), ms, M. split; [done|]. split; [done|]. split.
  - intros it q Hit Hq. apply elem_of_cons in Hit as [->|Hit].
    + eapply le_trans; [exact HleM|]. by apply Hle0.
    + apply list_elem_of_lookup in Hit as [k Hk].
      destruct (Forall2_lookup_l _ _ _ _ _ Hrel Hk)
        as (c & Hc & m & -> & _ & Hle).
      eapply le_trans; [|by apply Hle]. apply Hrest.
      by eapply list_elem_of_lookup_2.
  - apply elem_of_cons in HinM as [Heq|HinM].
    + injection Heq as ->. exists item. split; [left|done].
    + apply list_elem_of_lookup in HinM as [k Hk].
      destruct (Forall2_lookup_r _ _ _ _ _ Hrel Hk)
        as (it & Hit & m & Heq & Hin & _).
      injection Heq as ->. exists it. split; [|done].
      right. by eapply list_elem_of_lookup_2.
Qed.

End extremum.

Lemma cltb_Num_le a b : cltb (Num a) (Num b) = true → (a <= b)%Q.
Proof. intros H. apply cltb_Num in H. by apply Qlt_le_weak. Qed.

Lemma cltb_Num_ge a b : cltb (Num a) (Num b) = false → (b <= a)%Q.
Proof. intros H. by apply cltb_Num_false in H. Qed.

(** X23.  With no limit given and panels that hold numbers only, at
    least one each, the colour scale covers every value of every panel.
    For a diverging colour map the scale is symmetric about zero and
    reaches the largest magnitude found; otherwise its ends are the
    least and the greatest value found. *)
Theorem comparison_limits_cover (data_dict : list (string * Grid))
    (cmap : string) :
  data_dict ≠ [] →
  Forall (λ item, numeric item.2 ∧ concat (data item.2) ≠ []) data_dict →
  ∃ lo hi,
    comparison_limits data_dict None None cmap = Ok (Num lo, Num hi) ∧
    (∀ name g i j q, (name, g) ∈ data_dict →
       cell_at g i j = Some (Num q) → (lo <= q ∧ q <= hi)%Q) ∧
    (if diverging cmap
     then lo = (- hi)%Q ∧
          ∃ name g i j q, (name, g) ∈ data_dict ∧
            cell_at g i j = Some (Num q) ∧ hi = Qabs q
     else (∃ name g i j, (name, g) ∈ data_dict ∧
             cell_at g i j = Some (Num lo)) ∧
          (∃ name g i j, (name, g) ∈ data_dict ∧
             cell_at g i j = Some (Num hi))).
Proof.
  intros Hne Hall.
  destruct (extremum_over_fields cltb Qle Qle_refl Qle_trans
              cltb_Num_le cltb_Num_ge data_dict Hne Hall)
    as (x1 & l1 & lo & Hmins & Hlo & Hlo_le & (ilo & Hilo_in & Hilo)).
  destruct (extremum_over_fields (λ y held, cltb held y) (λ a b, (b <= a)%Q)
              Qle_refl (λ a b c Hab Hbc, Qle_trans _ _ _ Hbc Hab)
              (λ a b, cltb_Num_le b a) (λ a b, cltb_Num_ge b a)
              data_dict Hne Hall)
    as (x2 & l2 & hi & Hmaxs & Hhi & Hhi_le & (ihi & Hihi_in & Hihi)).
  cbn beta in Hhi.
  assert (Hcover : ∀ name g i j q, (name, g) ∈ data_dict →
            cell_at g i j = Some (Num q) → (lo <= q ∧ q <= hi)%Q).
  { intros name g i j q Hin Hq.
    assert (Num q ∈ concat (data g)) by (apply cell_at_elem_of; eauto).
    split; [exact (Hlo_le (name, g) q Hin H)|exact (Hhi_le (name, g) q Hin H)]. }
  apply cell_at_elem_of in Hilo as (i1 & j1 & Hc1).
  apply cell_at_elem_of in Hihi as (i2 & j2 & Hc2).
  destruct ilo as [n1 g1], ihi as [n2 g2]. cbn [snd] in Hc1, Hc2.
  unfold comparison_limits, field_min, field_max.
  rewrite Hmins. cbn [mbind result_bind py_min]. rewrite Hlo.
  rewrite Hmaxs. cbn [mbind result_bind py_max]. rewrite Hhi.
  destruct (diverging cmap).
  - cbn [py_max cabs foldl mbind result_bind default cneg].
    destruct (cltb (Num (Qabs lo)) (Num (Qabs hi))) eqn:Hcmp.
    + apply cltb_Num_le in Hcmp.
      exists (- Qabs hi)%Q, (Qabs hi). split; [done|]. split.
      * intros name g i j q Hin Hq.
        destruct (Hcover name g i j q Hin Hq) as [H1 H2].
        pose proof (Qle_Qabs hi). pose proof (Qle_Qabs (- lo)%Q).
        rewrite Qabs_opp in H0. split; lra.
      * split; [done|]. exists n2, g2, i2, j2, hi. done.
    + apply cltb_Num_ge in Hcmp.
      exists (- Qabs lo)%Q, (Qabs lo). split; [done|]. split.
      * intros name g i j q Hin Hq.
        destruct (Hcover name g i j q Hin Hq) as [H1 H2].
        pose proof (Qle_Qabs hi). pose proof (Qle_Qabs (- lo)%Q).
        rewrite Qabs_opp in H0. split; lra.
      * split; [done|]. exists n1, g1, i1, j1, lo. done.
  - cbn [default]. exists lo, hi. split; [done|]. split; [done|].
    split; [exists n1, g1, i1, j1|exists n2, g2, i2, j2]; done.
Qed.

(** ** Worked examples of the further properties *)

Lemma fix_lon_keeps_values_witness :
  rectangular sample_grid ∧
  StronglySorted Qle (lon (fix_lon sample_grid)) ∧
  rectangular (fix_lon sample_grid) ∧
  Forall2 (λ row' row, row' ≡ₚ row)
    (data (fix_lon sample_grid)) (data sample_grid).
Proof.
  split; [exact rectangular_sample_grid|].
  destruct (fix_lon_keeps_values sample_grid rectangular_sample_grid)
    as (_ & _ & Hs & _ & Hr & Hp).
  split; [exact Hs|]. split; [exact Hr|exact Hp].
Defined.

Lemma fix_lon_range_witness :
  Forall (λ v, (-180 < v)%Q ∧ (v <= 180)%Q) (lon (fix_lon sample_grid)).
Proof.
  apply (fix_lon_range sample_grid).
  repeat constructor; solve_Q.
Defined.

Lemma solar_cell_antitone_witness :
  ∃ r1 r2, solar_cell (Num 10) = Num r1 ∧ solar_cell (Num 4000) = Num r2 ∧
           (r2 <= r1)%Q.
Proof. apply (solar_cell_antitone 10 4000). solve_Q. Defined.

Lemma solar_never_below_cap_witness :
  ∃ c, cell_at (calculate_solar_potential_change cap_grid) 0 1 = Some c ∧
       cltb c (Num (-100)) = false ∧ is_nan c = false.
Proof.
  apply (solar_never_below_cap cap_grid 0 1 (Num 4000)). reflexivity.
Defined.


Lemma loader_result_witness :
  ∃ w b n, process_scenario_data sample_fs 2050 "45" = Ok (w, b, n) ∧
           b = fix_lon (const_grid 10) ∧ n = fix_lon (const_grid 4) ∧
           StronglySorted Qle (lon b) ∧ xr_sub b n = Ok w.
Proof.
  assert (H : is_ok (process_scenario_data sample_fs 2050 "45") = true)
    by (vm_compute; reflexivity).
  destruct (process_scenario_data sample_fs 2050 "45") as [[[w b] n]|e]
    eqn:Hrun; [|discriminate H].
  destruct (loader_result sample_fs 2050 "45" w b n Hrun)
    as (ds_b & ds_n & da_b & da_n & Hfb & Hfn & Hvb & Hvn & Hb & Hn
        & Hsb & _ & Hsub & _).
  exists w, b, n. split; [reflexivity|].
  assert (Hfb' : sample_fs !! scenario_path 2050 "45" = Some (const_file 10))
    by (vm_compute; reflexivity).
  assert (Hfn' : sample_fs !! scenario_nofire_path 2050 "45"
                 = Some (const_file 4)) by (vm_compute; reflexivity).
  assert (Hdb : ds_b = const_file 10) by congruence. subst ds_b.
  assert (Hdn : ds_n = const_file 4) by congruence. subst ds_n.
  assert (Hab : da_b = Field (const_grid 10))
    by (injection Hvb as <-; reflexivity). subst da_b.
  assert (Han : da_n = Field (const_grid 4))
    by (injection Hvn as <-; reflexivity). subst da_n.
  split; [exact Hb|]. split; [exact Hn|]. split; [exact Hsb|exact Hsub].
Defined.

Lemma time_mean_of_constant_witness :
  ∃ c, cell_at
         (collapse_time (Series [0]%Q [0]%Q [[[Num 5]]; [[Num 5]]] ∅)) 0 0
       = Some c ∧ ceq c (Num 5).
Proof.
  apply (time_mean_of_constant [0]%Q [0]%Q [[[Num 5]]; [[Num 5]]] ∅ 0 0 5).
  - discriminate.
  - simpl. lia.
  - simpl. lia.
  - repeat constructor.
Defined.

Lemma time_mean_skips_nan_witness :
  cell_at (collapse_time gappy_series) 0 0
  = Some (Num (Qsum [2; 4]%Q / inject_Z 2)).
Proof.
  apply (time_mean_skips_nan [0]%Q [0]%Q [[[Num 2]]; [[NaN]]; [[Num 4]]] ∅
           0 0 [2; 4]%Q).
  - simpl. lia.
  - simpl. lia.
  - reflexivity.
Defined.

Lemma main_derivations_witness :
  ∃ m w, main sample_fs = Ok m ∧
    is_difference m "wildfire_pm25_2100_85"
      "baseline_pm25_2100_85" "nofire_pm25_2100_85" ∧
    m !! "wildfire_pm25_2100_85" = Some w ∧
    m !! "solar_change_2100_85" = Some (calculate_solar_potential_change w).
Proof.
  destruct main_sample_runs as [m Hm].
  destruct (main_derivations sample_fs m Hm (Projection 2100 RCP85))
    as (Hd & w & Hw & Hs).
  - unfold scenario_keys. find_item.
  - exists m, w. split; [exact Hm|]. split; [exact Hd|].
    split; [exact Hw|exact Hs].
Defined.

Lemma main_requires_all_files_witness :
  ∃ ds da,
    sample_fs !! "./data/CESM_09x125_PM25_2100_RCP85_NoFire.nc" = Some ds ∧
    ds !! "pm25" = Some da.
Proof.
  destruct main_sample_runs as [m Hm].
  apply (main_requires_all_files sample_fs m Hm
           (scenario_nofire_path 2100 "85")).
  unfold required_paths. find_item.
Defined.

Lemma main_fields_ascending_witness :
  ∃ m g, main sample_fs = Ok m ∧ m !! "solar_change_2050_45" = Some g ∧
         StronglySorted Qle (lon g).
Proof.
  destruct main_sample_runs as [m Hm].
  destruct (main_has_field sample_fs m "solar_change_2050_45" Hm) as [g Hg].
  - unfold variable_names. find_item.
  - exists m, g. split; [exact Hm|]. split; [exact Hg|].
    exact (main_fields_ascending sample_fs m "solar_change_2050_45" g Hm Hg).
Defined.

Lemma regional_means_keys_witness :
  ∃ col,
    calculate_regional_means approx_cos_deg
      [("field", sample_grid_normalized); ("flat", normalized_grid 6)]
      !! "Asia" = Some col ∧
    dom col = list_to_set ["field"; "flat"].
Proof.
  assert (H : is_Some
    (calculate_regional_means approx_cos_deg
       [("field", sample_grid_normalized); ("flat", normalized_grid 6)]
       !! "Asia")).
  { apply elem_of_dom.
    rewrite (proj1 (regional_means_keys approx_cos_deg
       [("field", sample_grid_normalized); ("flat", normalized_grid 6)])).
    apply elem_of_list_to_set. unfold regions. cbn [fmap list_fmap fst].
    find_item. }
  destruct H as [col Hcol]. exists col. split; [exact Hcol|].
  destruct (regional_means_keys approx_cos_deg
       [("field", sample_grid_normalized); ("flat", normalized_grid 6)])
    as (_ & _ & Hcols).
  exact (Hcols "Asia" col Hcol).
Defined.

Lemma regional_mean_of_empty_window_witness :
  ∃ col,
    calculate_regional_means approx_cos_deg [("field", sample_grid_normalized)]
      !! "Europe" = Some col ∧
    col !! "field" = Some NaN.
Proof.
  apply (regional_mean_of_empty_window approx_cos_deg
           [("field", sample_grid_normalized)] "field" sample_grid_normalized
           "Europe" (mkRegion 35 70 (-10) 40)).
  - apply NoDup_singleton.
  - apply list_elem_of_here.
  - unfold regions. find_item.
  - split; [reflexivity | repeat constructor].
  - simpl; repeat constructor; solve_Q.
  - simpl; repeat constructor; solve_Q.
  - vm_compute. reflexivity.
Defined.

Lemma regional_mean_within_bounds_witness :
  ∃ q, weighted_mean approx_cos_deg sample_grid_normalized
         (mkRegion (-35) 35 (-20) 55) = Num q ∧
       (1 <= q)%Q ∧ (q <= 4)%Q.
Proof.
  apply (regional_mean_within_bounds approx_cos_deg sample_grid_normalized
           "Africa" (mkRegion (-35) 35 (-20) 55) 1 4).
  - exact approx_cos_deg_pos.
  - unfold regions. find_item.
  - split; [reflexivity | repeat constructor].
  - repeat constructor; by eexists.
  - simpl; repeat constructor; solve_Q.
  - simpl; repeat constructor; solve_Q.
  - vm_compute. discriminate.
  - match goal with
    | |- Forall _ ?l => let x := eval vm_compute in l in change l with x
    end.
    repeat constructor; solve_Q.
Defined.

Lemma regional_mean_of_solar_field_witness :
  ceq (weighted_mean approx_cos_deg
         (calculate_solar_potential_change sample_grid_normalized)
         (mkRegion (-35) 35 (-20) 55))
      (uncapped_change
         (weighted_mean approx_cos_deg sample_grid_normalized
            (mkRegion (-35) 35 (-20) 55))).
Proof.
  apply (regional_mean_of_solar_field approx_cos_deg sample_grid_normalized
           (mkRegion (-35) 35 (-20) 55)).
  - split; [reflexivity | repeat constructor].
  - repeat constructor; eexists; (split; [reflexivity|solve_Q]).
  - simpl; repeat constructor; solve_Q.
  - simpl; repeat constructor; solve_Q.
Defined.

Lemma figures_saved_in_order_witness :
  saved_figures
    (run_visualization.main run_visualization.sample_env "figures").2
  = path_join "figures" <$> figure_files.
Proof.
  apply (proj2 (figures_saved_in_order run_visualization.sample_env
                  "figures")).
  vm_compute. reflexivity.
Defined.


Lemma subtraction_antisymmetric_witness :
  ∃ d1 d2, xr_sub sample_grid (const_grid 4) = Ok d1 ∧
    xr_sub (const_grid 4) sample_grid = Ok d2 ∧
    match cell_at d1 1 2, cell_at d2 1 2 with
    | Some c1, Some c2 => ceq c2 (cneg c1)
    | None, None => True
    | _, _ => False
    end.
Proof.
  destruct (subtraction_antisymmetric sample_grid (const_grid 4))
    as (d1 & d2 & H1 & H2 & Hc).
  - split; vm_compute; reflexivity.
  - exact rectangular_sample_grid.
  - split; [reflexivity | repeat constructor].
  - exists d1, d2. split; [exact H1|]. split; [exact H2|].
    exact (Hc 1%nat 2%nat).
Defined.

Lemma loader_disjoint_latitudes_witness :
  ∃ msg, process_scenario_data disjoint_fs 2050 "45"
         = Raise (ValueError msg).
Proof.
  apply (loader_disjoint_latitudes disjoint_fs 2050 "45"
           (const_file 10) {[ "pm25" := Field (one_cell 4) ]}
           (Field (const_grid 10)) (Field (one_cell 4))).
  - simpl. lia.
  - vm_compute. reflexivity.
  - vm_compute. reflexivity.
  - reflexivity.
  - reflexivity.
  - repeat constructor.
Defined.

Lemma panel_grid_fits_witness :
  panel_grid 5 = (2, 3)%nat ∧
  (((panel_grid 5).1 - 1) * (panel_grid 5).2 < 5)%nat.
Proof.
  split; [reflexivity|].
  apply (proj2 (proj2 (panel_grid_fits 5))). lia.
Defined.

Lemma comparison_limits_cover_witness :
  ∃ lo hi,
    comparison_limits [("a", sample_grid); ("b", one_cell (-9))]
      None None "RdBu_r" = Ok (Num lo, Num hi) ∧
    lo = (- hi)%Q ∧ (lo <= -9)%Q ∧ (6 <= hi)%Q.
Proof.
  destruct (comparison_limits_cover
              [("a", sample_grid); ("b", one_cell (-9))] "RdBu_r")
    as (lo & hi & Hrun & Hcover & Hsym & _).
  - discriminate.
  - repeat constructor; try (by eexists); discriminate.
  - exists lo, hi. split; [exact Hrun|]. split; [exact Hsym|]. split.
    + apply (Hcover "b" (one_cell (-9)) 0%nat 0%nat (-9)%Q);
        [find_item|reflexivity].
    + apply (Hcover "a" sample_grid 1%nat 2%nat 6%Q);
        [find_item|reflexivity].
Defined.
